(** * The resource-provider controller of lilypad

    A shallow embedding of [pkg/resourceprovider/controller.go] and
    [pkg/system/log.go], and the properties of its reconciliation loop.

    The controller talks to a solver (over HTTP), to a ledger (web3), to the
    clock, to the logger and to the caller of [Start] (over an unbuffered
    channel).  All of these are outside the controller: the embedding takes
    them as a [World], a deterministic machine with a state of its own that
    answers every call.  The controller's code becomes a state-passing
    program over the world's state and a trace of the calls it has made. *)

From Stdlib Require Import ZArith.
From stdpp Require Import gmap strings list fin_maps.

Local Open Scope Z_scope.

(** ** Go's machine integers and errors *)

(** A value of Go's [int64]: the integers wrap around at 64 bits. *)
Definition int64 (z : Z) : Z := (z + 2 ^ 63) `mod` 2 ^ 64 - 2 ^ 63.

(** The conversion [int(x)].  Go's [int] has 64 bits on the platforms the
    program is built for (amd64, arm64). *)
Definition int (z : Z) : Z := int64 z.

(** [time.Millisecond], a [time.Duration]: a count of nanoseconds. *)
Definition time_Millisecond : Z := 1000000.

(** A Go [error], known by its message; [Errorf] is [fmt.Errorf] on a
    constant format string. *)
Inductive error := Errorf (msg : string).

(** ** zerolog levels used by [pkg/system/log.go] *)
Inductive Level := TraceLevel | DebugLevel | InfoLevel | ErrorLevel.

(** [system.Service]; the controller logs as [system.ResourceProviderService]. *)
Inductive Service := ResourceProviderService | OtherService (name : string).

(** The kind of a solver event.  The controller only tells [solver.DealAdded]
    from the rest. *)
Inductive SolverEventType := DealAdded | OtherEvent (kind : string).

#[global] Instance SolverEventType_eq_dec : EqDecision SolverEventType.
Proof. solve_decision. Defined.

(** The closures the controller hands to its collaborators, by name. *)
Inductive Callback := SolverEventHandler | DealStateChangeHandler.

(** The goroutine [Start] spawns: the reconciliation loop, which captures the
    error channel. *)
Inductive Goroutine := SolveLoop (errorChan : nat).

(** How the [select] of the loop wakes up: the one-second timer fired, or
    [ctx.Done()] was closed, either before the select was reached
    ([mid_sleep = false]) or while the loop was sleeping in it. *)
Inductive Wake := TimerFired | CtxDone (mid_sleep : bool).

(** An unbuffered channel of errors.  A send on it completes only when
    another goroutine receives; [ch_shared] tells whether anyone but the
    creating function holds the channel, [ch_received] what was received
    from it so far. *)
Record Chan := { ch_shared : bool; ch_received : list error }.

Section Controller.

(** Types declared in [pkg/data], [pkg/solver] and the storage bindings,
    which the controller only passes around. *)
Context {MachineSpec OfferMode DealPricing DealTimeouts TrustedPartiesT : Type}.
Context {Deal StorageDealStateChange : Type}.
(** The field [Deal.ResourceProvider]. *)
Context (Deal_ResourceProvider : Deal → string).

(** Modelled from the spec: [data.ResourceOffer] is declared in [pkg/data];
    its fields are those the struct literal of [getResourceOffer] names. *)
Record ResourceOffer := {
  ro_CreatedAt : Z;
  ro_ResourceProvider : string;
  ro_Index : Z;
  ro_Spec : MachineSpec;
  ro_Modules : list string;
  ro_Mode : OfferMode;
  ro_DefaultPricing : DealPricing;
  ro_DefaultTimeouts : DealTimeouts;
  ro_ModulePricing : gmap string DealPricing;
  ro_ModuleTimeouts : gmap string DealTimeouts;
  ro_TrustedParties : TrustedPartiesT
}.

(** Modelled from the spec: [data.ResourceOfferContainer], the solver's
    record of an offer, with the solver's own identifier. *)
Record ResourceOfferContainer := {
  roc_ID : string;
  roc_ResourceOffer : ResourceOffer
}.

(** [store.GetDealsQuery] and [store.GetResourceOffersQuery], with the
    fields the controller sets. *)
Record GetDealsQuery := {
  gdq_ResourceProvider : string;
  gdq_State : string
}.

Record GetResourceOffersQuery := {
  groq_ResourceProvider : string;
  groq_Active : bool
}.

(** Modelled from the spec: [solver.SolverEvent], an event kind with a
    [*data.Deal] that may be nil. *)
Record SolverEvent := {
  ev_EventType : SolverEventType;
  ev_Deal : option Deal
}.

(** [controller.options.Offers]. *)
Record ResourceProviderOfferOptions := {
  Offers_Specs : list MachineSpec;
  Offers_Modules : list string;
  Offers_Mode : OfferMode;
  Offers_DefaultPricing : DealPricing;
  Offers_DefaultTimeouts : DealTimeouts;
  Offers_TrustedParties : TrustedPartiesT
}.

(** ** What the controller does to the outside *)

(** The [data interface{}] argument of the logging functions. *)
Inductive LogData :=
| DataString (s : string)
| DataError (e : error)
| DataDeal (d : Deal)
| DataResourceOffer (o : ResourceOffer)
| DataStateChange (ev : StorageDealStateChange).

(** One event handed to zerolog by [logWithCaller]: the level, the key
    [GetServiceString(service, title)], the value printed with [%+v], and
    the caller-skip count in force when [Caller()] ran. *)
Record LogEvent := {
  log_level : Level;
  log_service : Service;
  log_title : string;
  log_data : LogData;
  log_skip : Z
}.

Inductive Action :=
| Log (e : LogEvent)
| ServiceLogSolverEvent (svc : Service) (ev : SolverEvent)
| SubscribeEvents (cb : Callback)
| SubscribeDealStateChange (cb : Callback)
| SolverClientStart
| Web3EventsStart
| GetDeals (q : GetDealsQuery)
| GetResourceOffers (q : GetResourceOffersQuery)
| AddResourceOffer (o : ResourceOffer)
(** [web3SDK.Contracts.Controller.Agree], the on-ledger agreement; the
    call is commented out in [agreeToDeals]. *)
| ControllerAgree (d : Deal)
| ChanSend (c : nat) (e : error)
| Select (w : Wake).

(** ** The world *)

(** The collaborators, as functions of a world state [Σ].  A call that
    returns [(value, err)] in Go returns the pair here. *)
Context {Σ : Type}.

Record World := {
  (** [web3SDK.GetAddress().String()]: the provider's own address. *)
  w_GetAddress : string;
  (** [time.Now().UnixNano()] *)
  w_UnixNano : Σ → Z * Σ;
  w_GetDeals : GetDealsQuery → Σ → (list Deal * option error) * Σ;
  w_GetResourceOffers :
    GetResourceOffersQuery → Σ → (list ResourceOfferContainer * option error) * Σ;
  w_AddResourceOffer : ResourceOffer → Σ → (ResourceOfferContainer * option error) * Σ;
  (** [solverClient.Start] and [web3Events.Start] *)
  w_SolverClientStart : Σ → option error * Σ;
  w_Web3EventsStart : Σ → option error * Σ;
  (** which case of the loop's [select] becomes ready first *)
  w_Select : Σ → Wake * Σ;
  (** whether the holder of a shared channel ever receives from it *)
  w_Receive : Σ → bool * Σ
}.

Context (W : World) (options : ResourceProviderOfferOptions).

(** ** Program states and the monad of the embedding *)

Record St := {
  world : Σ;
  trace : list Action;
  (** the global [zerolog.CallerSkipFrameCount] *)
  CallerSkipFrameCount : Z;
  chans : list Chan;
  goroutines : list Goroutine
}.

(** A call returns, panics, blocks for ever, or (a loop given too little
    fuel) is still running. *)
Inductive Outcome (A : Type) :=
| Returns (a : A) (s : St)
| Panics (s : St)
| Blocks (s : St)
| Running (s : St).
Global Arguments Returns {A} a s.
Global Arguments Panics {A} s.
Global Arguments Blocks {A} s.
Global Arguments Running {A} s.

Definition final {A} (o : Outcome A) : St :=
  match o with Returns _ s | Panics s | Blocks s | Running s => s end.

Definition M (A : Type) : Type := St → Outcome A.

#[export] Instance M_ret : MRet M := λ A a s, Returns a s.

#[export] Instance M_bind : MBind M := λ A B k m s,
  match m s with
  | Returns a s' => k a s'
  | Panics s' => Panics s'
  | Blocks s' => Blocks s'
  | Running s' => Running s'
  end.

(** State updates. *)
Definition st_emit (a : Action) (s : St) : St :=
  {| world := world s; trace := trace s ++ [a];
     CallerSkipFrameCount := CallerSkipFrameCount s;
     chans := chans s; goroutines := goroutines s |}.

Definition st_world (σ : Σ) (s : St) : St :=
  {| world := σ; trace := trace s;
     CallerSkipFrameCount := CallerSkipFrameCount s;
     chans := chans s; goroutines := goroutines s |}.

Definition st_skip (n : Z) (s : St) : St :=
  {| world := world s; trace := trace s; CallerSkipFrameCount := n;
     chans := chans s; goroutines := goroutines s |}.

Definition st_chans (cs : list Chan) (s : St) : St :=
  {| world := world s; trace := trace s;
     CallerSkipFrameCount := CallerSkipFrameCount s;
     chans := cs; goroutines := goroutines s |}.

Definition st_goroutines (gs : list Goroutine) (s : St) : St :=
  {| world := world s; trace := trace s;
     CallerSkipFrameCount := CallerSkipFrameCount s;
     chans := chans s; goroutines := gs |}.

Definition emit (a : Action) : M unit := λ s, Returns tt (st_emit a s).

(** Calling a collaborator: the call is recorded, then the world answers
    and moves on. *)
Definition call {A} (a : Action) (f : Σ → A * Σ) : M A := λ s,
  let '(r, σ) := f (world s) in Returns r (st_world σ (st_emit a s)).

(** Reading the clock is not recorded as an action. *)
Definition time_Now_UnixNano : M Z := λ s,
  let '(t, σ) := w_UnixNano W (world s) in Returns (int64 t) (st_world σ s).

Definition set_CallerSkipFrameCount (n : Z) : M unit := λ s,
  Returns tt (st_skip n s).

Definition get_CallerSkipFrameCount : M Z := λ s,
  Returns (CallerSkipFrameCount s) s.

(** Dereferencing a pointer: a nil pointer panics. *)
Definition deref {A} (p : option A) : M A := λ s,
  match p with Some a => Returns a s | None => Panics s end.

(** [make(chan error)]: a fresh unbuffered channel nobody else holds. *)
Definition make_chan : M nat := λ s,
  Returns (length (chans s))
    (st_chans (chans s ++ [{| ch_shared := false; ch_received := [] |}]) s).

(** [return c]: the channel is handed to the caller. *)
Definition return_chan (c : nat) : M nat := λ s,
  Returns c
    (st_chans (alter (λ ch, {| ch_shared := true; ch_received := ch_received ch |})
                 c (chans s)) s).

(** [c <- e].  The channel is unbuffered: when nobody else holds it, no
    receiver can ever come and the send blocks for ever; when it is
    shared, the send completes if the holder receives. *)
Definition chan_send (c : nat) (e : error) : M unit := λ s,
  let s := st_emit (ChanSend c e) s in
  match chans s !! c with
  | Some ch =>
      if ch_shared ch then
        let '(received, σ) := w_Receive W (world s) in
        if received : bool then
          Returns tt
            (st_chans (<[c := {| ch_shared := true;
                                 ch_received := ch_received ch ++ [e] |}]> (chans s))
               (st_world σ s))
        else Blocks (st_world σ s)
      else Blocks s
  | None => Blocks s
  end.

(** [go g] *)
Definition go (g : Goroutine) : M unit := λ s,
  Returns tt (st_goroutines (goroutines s ++ [g]) s).

(** [select { case <-time.After(1 * time.Second): case <-ctx.Done(): }]:
    the world tells which case is taken. *)
Definition select_timer_or_done : M Wake := λ s,
  let '(w, σ) := w_Select W (world s) in Returns w (st_world σ (st_emit (Select w) s)).

(** [for _, x := range l { body }] *)
Fixpoint for_range {A} (l : list A) (body : A → M unit) : M unit :=
  match l with
  | [] => mret tt
  | x :: l' => body x;; for_range l' body
  end.

(** ** pkg/system/log.go *)

Definition logWithCaller (skipFrameCount : Z) (level : Level) (service : Service)
    (title : string) (data : LogData) : M unit :=
  set_CallerSkipFrameCount skipFrameCount;;
  skip ← get_CallerSkipFrameCount;
  emit (Log {| log_level := level; log_service := service; log_title := title;
               log_data := data; log_skip := skip |});;
  (* the deferred function *)
  set_CallerSkipFrameCount 3.

Definition Error (service : Service) (title : string) (err : error) : M unit :=
  logWithCaller 4 ErrorLevel service title (DataError err).

Definition Info (service : Service) (title : string) (data : LogData) : M unit :=
  logWithCaller 4 InfoLevel service title data.

Definition Debug (service : Service) (title : string) (data : LogData) : M unit :=
  logWithCaller 4 DebugLevel service title data.

Definition Trace (service : Service) (title : string) (data : LogData) : M unit :=
  logWithCaller 4 TraceLevel service title data.

(** ** Agree to deals *)

Definition agreeToDeals : M (option error) :=
  '(negotiatingDeals, err) ←
    (let q := {| gdq_ResourceProvider := w_GetAddress W;
                 gdq_State := "DealNegotiating" |} in
     call (GetDeals q) (w_GetDeals W q));
  if err is Some _ then mret err else
  if bool_decide (Z.of_nat (length negotiatingDeals) ≤ 0) then mret None else
  for_range negotiatingDeals (λ deal,
    Info ResourceProviderService "agree to deal" (DataDeal deal));;
  mret err.

(** [for index, x := range l { body }], threading the local variable the
    body assigns to. *)
Fixpoint for_range_index {A S} (index : Z) (l : list A)
    (body : Z → A → S → M S) (acc : S) : M S :=
  match l with
  | [] => mret acc
  | x :: l' => acc' ← body index x acc; for_range_index (index + 1) l' body acc'
  end.

(** [for _, x := range l { body }] with a body that may [return v] from the
    enclosing function: the body answers [Some v] then, and the loop stops. *)
Fixpoint for_range_return {A R} (l : list A) (body : A → M (option R)) : M (option R) :=
  match l with
  | [] => mret None
  | x :: l' =>
      r ← body x;
      match r with
      | Some v => mret (Some v)
      | None => for_range_return l' body
      end
  end.

(** [for { body }]: the body answers [true] when it returned from the
    enclosing function.  The loop has no exit of its own; [fuel] bounds the
    iterations the model follows. *)
Fixpoint for_ever (fuel : nat) (body : M bool) : M unit :=
  match fuel with
  | O => λ s, Running s
  | S fuel' => returned ← body; if returned : bool then mret tt else for_ever fuel' body
  end.

(** ** Ensure resource offers *)

Definition getResourceOffer (index : Z) (spec : MachineSpec) : M ResourceOffer :=
  now ← time_Now_UnixNano;
  mret {| ro_CreatedAt := int (int64 (now `quot` int64 time_Millisecond));
          ro_ResourceProvider := w_GetAddress W;
          ro_Index := index;
          ro_Spec := spec;
          ro_Modules := Offers_Modules options;
          ro_Mode := Offers_Mode options;
          ro_DefaultPricing := Offers_DefaultPricing options;
          ro_DefaultTimeouts := Offers_DefaultTimeouts options;
          ro_ModulePricing := ∅;
          ro_ModuleTimeouts := ∅;
          ro_TrustedParties := Offers_TrustedParties options |}.

(** The first loop of [ensureResourceOffers]: the active offers by index. *)
Definition existingResourceOffersMap_of (activeResourceOffers : list ResourceOfferContainer)
    : gmap Z ResourceOfferContainer :=
  foldl (λ m existingResourceOffer,
           <[ro_Index (roc_ResourceOffer existingResourceOffer) := existingResourceOffer]> m)
        ∅ activeResourceOffers.

(** The second loop: the offers to add, for the specs of the configuration. *)
Definition collectResourceOffers
    (existingResourceOffersMap : gmap Z ResourceOfferContainer) : M (list ResourceOffer) :=
  for_range_index 0 (Offers_Specs options) (λ index spec addResourceOffers,
    match existingResourceOffersMap !! index with
    | Some _ => mret addResourceOffers
    | None =>
        resourceOffer ← getResourceOffer index spec;
        mret (addResourceOffers ++ [resourceOffer])
    end) [].

(** The third loop: add them, returning at the first error. *)
Definition addCollectedResourceOffers (addResourceOffers : list ResourceOffer)
    : M (option (option error)) :=
  for_range_return addResourceOffers (λ resourceOffer,
    Info ResourceProviderService "add resource offer" (DataResourceOffer resourceOffer);;
    '(_, err) ← call (AddResourceOffer resourceOffer) (w_AddResourceOffer W resourceOffer);
    if err is Some _ then mret (Some err) else mret None).

Definition ensureResourceOffers : M (option error) :=
  '(activeResourceOffers, err) ←
    (let q := {| groq_ResourceProvider := w_GetAddress W; groq_Active := true |} in
     call (GetResourceOffers q) (w_GetResourceOffers W q));
  if err is Some _ then mret err else
  let existingResourceOffersMap := existingResourceOffersMap_of activeResourceOffers in
  addResourceOffers ← collectResourceOffers existingResourceOffersMap;
  returned ← addCollectedResourceOffers addResourceOffers;
  match returned with
  | Some r => mret r
  | None => mret err
  end.

(** ** Solve *)

Definition solve : M (option error) :=
  Debug ResourceProviderService "solving" (DataString "");;
  err ← agreeToDeals;
  if err is Some _ then mret err else
  err ← ensureResourceOffers;
  if err is Some _ then mret err else
  mret None.

(** ** Setup *)

(** The closure [subscribeToSolver] registers. *)
Definition solverEventHandler (ev : SolverEvent) : M unit :=
  emit (ServiceLogSolverEvent ResourceProviderService ev);;
  if bool_decide (ev_EventType ev = DealAdded) then
    if ev_Deal ev is None then
      Error ResourceProviderService "solver event" (Errorf "RP received nil deal")
    else
      deal ← deref (ev_Deal ev);
      if bool_decide (Deal_ResourceProvider deal ≠ w_GetAddress W) then mret tt
      else mret tt
  else mret tt.

(** The closure [subscribeToWeb3] registers. *)
Definition dealStateChangeHandler (ev : StorageDealStateChange) : M unit :=
  Info ResourceProviderService "StorageDealStateChange" (DataStateChange ev).

Definition subscribeToSolver : M (option error) :=
  emit (SubscribeEvents SolverEventHandler);;
  mret None.

Definition subscribeToWeb3 : M (option error) :=
  emit (SubscribeDealStateChange DealStateChangeHandler);;
  mret None.

(** The body of the goroutine of [Start]. *)
Definition solve_loop (fuel : nat) (errorChan : nat) : M unit :=
  for_ever fuel (
    err ← solve;
    if err is Some e then
      Error ResourceProviderService "error solving" e;;
      chan_send errorChan e;;
      mret true
    else
      w ← select_timer_or_done;
      match w with
      | TimerFired => mret false
      | CtxDone _ => mret true
      end).

(** [Start(ctx, cm)].  The context and the cleanup manager go to the
    collaborators, which are the world's; the cancellation of [ctx] shows in
    the select of the loop. *)
Definition Start : M nat :=
  errorChan ← make_chan;
  err ← subscribeToSolver;
  if err is Some e then chan_send errorChan e;; return_chan errorChan else
  err ← subscribeToWeb3;
  if err is Some e then chan_send errorChan e;; return_chan errorChan else
  err ← call SolverClientStart (w_SolverClientStart W);
  if err is Some e then chan_send errorChan e;; return_chan errorChan else
  err ← call Web3EventsStart (w_Web3EventsStart W);
  if err is Some e then chan_send errorChan e;; return_chan errorChan else
  go (SolveLoop errorChan);;
  return_chan errorChan.

(** After [Start] has returned, the goroutines it spawned run. *)
Definition run_goroutine (fuel : nat) (g : Goroutine) : M unit :=
  match g with SolveLoop errorChan => solve_loop fuel errorChan end.

Definition run_goroutines (fuel : nat) : M unit := λ s,
  for_range (goroutines s) (run_goroutine fuel) (st_goroutines [] s).

Definition controller (fuel : nat) : M nat :=
  errorChan ← Start;
  run_goroutines fuel;;
  mret errorChan.

End Controller.

(** ** Reading a trace, and the words of the specification *)

Section Specification.
Context {MachineSpec OfferMode DealPricing DealTimeouts TrustedPartiesT : Type}.
Context {Deal StorageDealStateChange : Type}.
Context {Σ : Type}.

Abbreviation World :=
  (@World MachineSpec OfferMode DealPricing DealTimeouts TrustedPartiesT Deal Σ).
Abbreviation St :=
  (@St MachineSpec OfferMode DealPricing DealTimeouts TrustedPartiesT Deal
     StorageDealStateChange Σ).
Abbreviation Action :=
  (@Action MachineSpec OfferMode DealPricing DealTimeouts TrustedPartiesT Deal
     StorageDealStateChange).
Abbreviation ResourceOffer :=
  (@ResourceOffer MachineSpec OfferMode DealPricing DealTimeouts TrustedPartiesT).
Abbreviation ResourceOfferContainer :=
  (@ResourceOfferContainer MachineSpec OfferMode DealPricing DealTimeouts TrustedPartiesT).

Context (W : World).
Context (options : @ResourceProviderOfferOptions MachineSpec OfferMode DealPricing
                     DealTimeouts TrustedPartiesT).

(** The deals of the on-ledger agreements in a trace, in order. *)
Definition agree_calls (d : list Action) : list Deal :=
  omap (λ a, match a with ControllerAgree deal => Some deal | _ => None end) d.

(** The offers of the add-offer calls in a trace, in order. *)
Definition add_calls (d : list Action) : list ResourceOffer :=
  omap (λ a, match a with AddResourceOffer o => Some o | _ => None end) d.

(** The errors sent on a channel in a trace, in order. *)
Definition sends (d : list Action) : list (nat * error) :=
  omap (λ a, match a with ChanSend c e => Some (c, e) | _ => None end) d.

(** The wake-ups of the loop's [select] in a trace, in order. *)
Definition selects (d : list Action) : list Wake :=
  omap (λ a, match a with Select w => Some w | _ => None end) d.

(** The action is a wake-up of the select. *)
Definition is_select (a : Action) : Prop := ∃ w, a = Select w.

(** The actions of a reconciliation cycle: logging and the three solver
    calls. *)
Definition cycle_action (a : Action) : Prop :=
  match a with
  | Log _ | GetDeals _ | GetResourceOffers _ | AddResourceOffer _ => True
  | _ => False
  end.

(** The line [system.X(system.ResourceProviderService, title, data)] as
    zerolog receives it. *)
Definition log_event (level : Level) (title : string)
    (data : @LogData MachineSpec OfferMode DealPricing DealTimeouts TrustedPartiesT Deal
              StorageDealStateChange) : Action :=
  Log {| log_level := level; log_service := ResourceProviderService;
         log_title := title; log_data := data; log_skip := 4 |}.

(** States reached by a reconciliation cycle.

    A cycle moves the world, extends the trace and touches the logger's
    global; it leaves the channels and the goroutines alone. *)
Definition st_after (s : St) (σ : Σ) (d : list Action) (n : Z) : St :=
  {| world := σ; trace := trace s ++ d; CallerSkipFrameCount := n;
     chans := chans s; goroutines := goroutines s |}.

(** The offer the spec asks for at a catalogue position, when the clock
    reads [nanos] nanoseconds since the epoch: identity and spec from the
    catalogue, the creation time in milliseconds, the provider's own
    address, the configuration copied, no per-module override. *)
Definition offer_at (nanos : Z) (index : Z) (spec : MachineSpec) : ResourceOffer :=
  {| ro_CreatedAt := int64 nanos `quot` 1000000;
     ro_ResourceProvider := w_GetAddress W;
     ro_Index := index;
     ro_Spec := spec;
     ro_Modules := Offers_Modules options;
     ro_Mode := Offers_Mode options;
     ro_DefaultPricing := Offers_DefaultPricing options;
     ro_DefaultTimeouts := Offers_DefaultTimeouts options;
     ro_ModulePricing := ∅;
     ro_ModuleTimeouts := ∅;
     ro_TrustedParties := Offers_TrustedParties options |}.

(** The indices the active offers of a snapshot cover, and the catalogue
    positions they leave uncovered, in catalogue order. *)
Definition covered (activeResourceOffers : list ResourceOfferContainer) : list Z :=
  (λ c, ro_Index (roc_ResourceOffer c)) <$> activeResourceOffers.

Definition missing (activeResourceOffers : list ResourceOfferContainer) : list Z :=
  filter (λ i, i ∉ covered activeResourceOffers)
         (seqZ 0 (Z.of_nat (length (Offers_Specs options)))).

(** The catalogue from position [index] on, each spec with its position. *)
Definition positions (index : Z) (specs : list MachineSpec) : list (Z * MachineSpec) :=
  zip (seqZ index (Z.of_nat (length specs))) specs.

(** The catalogue position and entry an offer stands for. *)
Definition offer_position (o : ResourceOffer) : Z * MachineSpec := (ro_Index o, ro_Spec o).

(** The uncovered positions with their catalogue entries. *)
Definition missing_positions (activeResourceOffers : list ResourceOfferContainer)
    : list (Z * MachineSpec) :=
  filter (λ p, p.1 ∉ covered activeResourceOffers) (positions 0 (Offers_Specs options)).

(** The query of [ensureResourceOffers]. *)
Definition active_offers_query : GetResourceOffersQuery :=
  {| groq_ResourceProvider := w_GetAddress W; groq_Active := true |}.

(** The query of [agreeToDeals]. *)
Definition negotiating_deals_query : GetDealsQuery :=
  {| gdq_ResourceProvider := w_GetAddress W; gdq_State := "DealNegotiating" |}.

(** What the third loop does for the offers of [l]: a log line and the
    add-offer call, for each in turn. *)
Definition add_lines (l : list ResourceOffer) : list Action :=
  l ≫= (λ o, [log_event InfoLevel "add resource offer" (DataResourceOffer o);
             AddResourceOffer o]).

(** The solver's answer to one add-offer call, and the world after it. *)
Definition add_error (o : ResourceOffer) (σ : Σ) : option error :=
  (w_AddResourceOffer W o σ).1.2.

Definition world_after_add (o : ResourceOffer) (σ : Σ) : Σ :=
  (w_AddResourceOffer W o σ).2.

(** The solver accepts the offers of [l], submitted one after the other from
    the world [σ]; and the world after it did. *)
Fixpoint adds_accepted (l : list ResourceOffer) (σ : Σ) : Prop :=
  match l with
  | [] => True
  | o :: l' => add_error o σ = None ∧ adds_accepted l' (world_after_add o σ)
  end.

Definition world_after_adds (l : list ResourceOffer) (σ : Σ) : Σ :=
  foldl (λ σ o, world_after_add o σ) σ l.

(** The calls of the setup of [Start], when none fails. *)
Definition setup_actions : list Action :=
  [SubscribeEvents SolverEventHandler; SubscribeDealStateChange DealStateChangeHandler;
   SolverClientStart; Web3EventsStart].

(** What the loop does with the error of a failed cycle: it logs it and
    sends it on its channel. *)
Definition error_lines (c : nat) (e : error) : list Action :=
  [log_event ErrorLevel "error solving" (DataError e); ChanSend c e].

(** What a call returned, when it did. *)
Definition returned {A} (out : @Outcome MachineSpec OfferMode DealPricing DealTimeouts
                                 TrustedPartiesT Deal StorageDealStateChange Σ A) : option A :=
  match out with
  | Returns a _ => Some a
  | _ => None
  end.

(** A goroutine has come to its end: it returned, or it blocks for ever. *)
Definition stopped {A} (out : @Outcome MachineSpec OfferMode DealPricing DealTimeouts
                                TrustedPartiesT Deal StorageDealStateChange Σ A) : Prop :=
  match out with
  | Returns _ _ | Blocks _ => True
  | Panics _ | Running _ => False
  end.

(** The runs of the reconciliation loop on channel [c], from the start of a
    cycle: the model stops following it; the cycle fails, the error is
    forwarded and the loop is over; the cycle succeeds and the select finds
    the context cancelled; the cycle succeeds, the timer fires and the loop
    goes on with the next cycle. *)
Inductive loop_run (c : nat) : St → @Outcome MachineSpec OfferMode DealPricing DealTimeouts
                                      TrustedPartiesT Deal StorageDealStateChange Σ unit → Prop :=
| loop_followed_no_further s :
    loop_run c s (Running s)
| loop_cycle_failed s e s1 :
    solve W options s = Returns (Some e) s1 →
    loop_run c s
      ((Error ResourceProviderService "error solving" e;; chan_send W c e;; mret tt) s1)
| loop_cancelled s s1 mid_sleep s2 :
    solve W options s = Returns None s1 →
    select_timer_or_done W s1 = Returns (CtxDone mid_sleep) s2 →
    loop_run c s (Returns tt s2)
| loop_next_cycle s s1 s2 out :
    solve W options s = Returns None s1 →
    select_timer_or_done W s1 = Returns TimerFired s2 →
    loop_run c s2 out →
    loop_run c s out.

End Specification.

(** ** A concrete provider, for examples *)

Module Ex.

(** Machine specs, modes, pricing and timeouts are names and numbers here; a
    deal is its identifier and the address of its resource provider. *)
Abbreviation Deal := (string * string)%type.
Abbreviation World := (@World string string Z Z unit Deal nat).
Abbreviation St := (@St string string Z Z unit Deal unit nat).
Abbreviation Options := (@ResourceProviderOfferOptions string string Z Z unit).
Abbreviation Container := (@ResourceOfferContainer string string Z Z unit).
Abbreviation Offer := (@ResourceOffer string string Z Z unit).
Abbreviation Event := (@SolverEvent Deal).

Definition Deal_ResourceProvider (deal : Deal) : string := deal.2.

Definition options : Options :=
  {| Offers_Specs := ["specA"; "specB"]; Offers_Modules := ["cowsay"];
     Offers_Mode := "ModeOfferOnly"; Offers_DefaultPricing := 1;
     Offers_DefaultTimeouts := 3600; Offers_TrustedParties := tt |}.

(** A catalogue of three. *)
Definition options3 : Options :=
  {| Offers_Specs := ["specA"; "specB"; "specC"]; Offers_Modules := ["cowsay"];
     Offers_Mode := "ModeOfferOnly"; Offers_DefaultPricing := 1;
     Offers_DefaultTimeouts := 3600; Offers_TrustedParties := tt |}.

Definition offer (index : Z) (spec : string) : Offer :=
  {| ro_CreatedAt := 1700000000123; ro_ResourceProvider := "0xRP";
     ro_Index := index; ro_Spec := spec; ro_Modules := ["cowsay"];
     ro_Mode := "ModeOfferOnly"; ro_DefaultPricing := 1;
     ro_DefaultTimeouts := 3600; ro_ModulePricing := ∅; ro_ModuleTimeouts := ∅;
     ro_TrustedParties := tt |}.

Definition container (index : Z) (spec : string) : Container :=
  {| roc_ID := "cid"; roc_ResourceOffer := offer index spec |}.

(** A world where everything succeeds: one negotiating deal, the offer of
    index 0 already active, the caller reading the channel, and the context
    cancelled during a sleep once eight calls were answered.  Its state
    counts the calls answered. *)
Definition world_ok : World :=
  {| w_GetAddress := "0xRP";
     w_UnixNano := λ σ, (1700000000123456789, σ);
     w_GetDeals := λ _ σ, (([("deal1", "0xRP")], None), S σ);
     w_GetResourceOffers := λ _ σ, (([container 0 "specA"], None), S σ);
     w_AddResourceOffer := λ o σ, (({| roc_ID := "new"; roc_ResourceOffer := o |}, None), S σ);
     w_SolverClientStart := λ σ, (None, S σ);
     w_Web3EventsStart := λ σ, (None, S σ);
     w_Select := λ σ, (if decide (σ < 8)%nat then TimerFired else CtxDone true, S σ);
     w_Receive := λ σ, (true, σ) |}.

(** No deal and no active offer yet; the solver accepts what it is given. *)
Definition world_fresh : World :=
  {| w_GetAddress := "0xRP";
     w_UnixNano := λ σ, (1700000000123456789, σ);
     w_GetDeals := λ _ σ, (([], None), S σ);
     w_GetResourceOffers := λ _ σ, (([], None), S σ);
     w_AddResourceOffer := λ o σ, (({| roc_ID := "new"; roc_ResourceOffer := o |}, None), S σ);
     w_SolverClientStart := λ σ, (None, S σ);
     w_Web3EventsStart := λ σ, (None, S σ);
     w_Select := λ σ, (TimerFired, S σ);
     w_Receive := λ σ, (true, σ) |}.

(** No deal, no active offer, and a solver that refuses the offer of index 1. *)
Definition world_add_fails : World :=
  {| w_GetAddress := "0xRP";
     w_UnixNano := λ σ, (1700000000123456789, σ);
     w_GetDeals := λ _ σ, (([], None), S σ);
     w_GetResourceOffers := λ _ σ, (([], None), S σ);
     w_AddResourceOffer := λ o σ,
       (({| roc_ID := "new"; roc_ResourceOffer := o |},
         if decide (ro_Index o = 1) then Some (Errorf "solver refused") else None), S σ);
     w_SolverClientStart := λ σ, (None, S σ);
     w_Web3EventsStart := λ σ, (None, S σ);
     w_Select := λ σ, (TimerFired, S σ);
     w_Receive := λ σ, (true, σ) |}.

(** A solver client that fails to start. *)
Definition world_setup_fails : World :=
  {| w_GetAddress := "0xRP";
     w_UnixNano := λ σ, (1700000000123456789, σ);
     w_GetDeals := λ _ σ, (([], None), S σ);
     w_GetResourceOffers := λ _ σ, (([], None), S σ);
     w_AddResourceOffer := λ o σ, (({| roc_ID := "new"; roc_ResourceOffer := o |}, None), S σ);
     w_SolverClientStart := λ σ, (Some (Errorf "connection refused"), S σ);
     w_Web3EventsStart := λ σ, (None, S σ);
     w_Select := λ σ, (TimerFired, S σ);
     w_Receive := λ σ, (true, σ) |}.

(** A solver that cannot list the active offers. *)
Definition world_query_fails : World :=
  {| w_GetAddress := "0xRP";
     w_UnixNano := λ σ, (1700000000123456789, σ);
     w_GetDeals := λ _ σ, (([], None), S σ);
     w_GetResourceOffers := λ _ σ, (([], Some (Errorf "solver down")), S σ);
     w_AddResourceOffer := λ o σ, (({| roc_ID := "new"; roc_ResourceOffer := o |}, None), S σ);
     w_SolverClientStart := λ σ, (None, S σ);
     w_Web3EventsStart := λ σ, (None, S σ);
     w_Select := λ σ, (TimerFired, S σ);
     w_Receive := λ σ, (true, σ) |}.

(** The state before [Start]: nothing done yet, the logger's global as
    [SetupLogging] leaves it. *)
Definition init : St :=
  {| world := 0%nat; trace := []; CallerSkipFrameCount := 3; chans := [];
     goroutines := [] |}.

(** The state in which the goroutine of [Start] begins, after a setup
    without failure. *)
Definition started : St :=
  {| world := 2%nat; trace := setup_actions; CallerSkipFrameCount := 3;
     chans := [{| ch_shared := true; ch_received := [] |}]; goroutines := [] |}.

(** A deal-added event for another provider, and one without a deal. *)
Definition deal_for_another : Event :=
  {| ev_EventType := DealAdded; ev_Deal := Some ("deal2", "0xOther") |}.

Definition deal_missing : Event :=
  {| ev_EventType := DealAdded; ev_Deal := None |}.

End Ex.

(** * More of the controller: what a whole run does *)

Section RunSpecification.
Context {MachineSpec OfferMode DealPricing DealTimeouts TrustedPartiesT : Type}.
Context {Deal StorageDealStateChange : Type}.
Context {Σ : Type}.

Abbreviation World :=
  (@World MachineSpec OfferMode DealPricing DealTimeouts TrustedPartiesT Deal Σ).
Abbreviation St :=
  (@St MachineSpec OfferMode DealPricing DealTimeouts TrustedPartiesT Deal
     StorageDealStateChange Σ).
Abbreviation Action :=
  (@Action MachineSpec OfferMode DealPricing DealTimeouts TrustedPartiesT Deal
     StorageDealStateChange).
Abbreviation ResourceOffer :=
  (@ResourceOffer MachineSpec OfferMode DealPricing DealTimeouts TrustedPartiesT).
Abbreviation ResourceOfferContainer :=
  (@ResourceOfferContainer MachineSpec OfferMode DealPricing DealTimeouts TrustedPartiesT).

Context (W : World).
Context (options : @ResourceProviderOfferOptions MachineSpec OfferMode DealPricing
                     DealTimeouts TrustedPartiesT).

(** A call of the loop stays with this provider: the deals asked for are
    the negotiating deals of its own address, the offers asked for are its
    own active offers, an offer submitted names it as resource provider. *)
Definition scoped_call (a : Action) : Prop :=
  match a with
  | GetDeals q =>
      gdq_ResourceProvider q = w_GetAddress W ∧ gdq_State q = "DealNegotiating"
  | GetResourceOffers q =>
      groq_ResourceProvider q = w_GetAddress W ∧ groq_Active q = true
  | AddResourceOffer o => ro_ResourceProvider o = w_GetAddress W
  | _ => True
  end.

(** What the loop never does: the setup calls and the on-ledger agreement. *)
Definition setup_or_ledger_call (a : Action) : Prop :=
  match a with
  | SubscribeEvents _ | SubscribeDealStateChange _ | SolverClientStart | Web3EventsStart
  | ControllerAgree _ | ServiceLogSolverEvent _ _ => True
  | _ => False
  end.

(** A log line of the controller as [logWithCaller] hands it to zerolog: under
    the service of the resource provider, the caller taken four frames up. *)
Definition own_log (a : Action) : Prop :=
  match a with
  | Log e => log_service e = ResourceProviderService ∧ log_skip e = 4
  | _ => True
  end.

(** The three together, for the actions of the loop. *)
Definition loop_discipline (a : Action) : Prop :=
  scoped_call a ∧ ¬ setup_or_ledger_call a ∧ own_log a.

(** One answer of the world, to any call, takes it from [σ] to [σ']. *)
Inductive world_step : Σ → Σ → Prop :=
| step_UnixNano σ : world_step σ (w_UnixNano W σ).2
| step_GetDeals q σ : world_step σ (w_GetDeals W q σ).2
| step_GetResourceOffers q σ : world_step σ (w_GetResourceOffers W q σ).2
| step_AddResourceOffer o σ : world_step σ (w_AddResourceOffer W o σ).2
| step_SolverClientStart σ : world_step σ (w_SolverClientStart W σ).2
| step_Web3EventsStart σ : world_step σ (w_Web3EventsStart W σ).2
| step_Select σ : world_step σ (w_Select W σ).2
| step_Receive σ : world_step σ (w_Receive W σ).2.

(** A solver that keeps what it accepted: [cov σ i] says that in the world
    [σ] this provider has an active offer of index [i].  Nothing the world
    does loses such an offer, an offer of this provider that the solver
    accepted is one from then on, and a list of the active offers that the
    solver gives shows them all. *)
Definition keeps_offers (cov : Σ → Z → Prop) : Prop :=
  (∀ σ σ' i, world_step σ σ' → cov σ i → cov σ' i)
  ∧ (∀ o σ, ro_ResourceProvider o = w_GetAddress W →
            add_error W o σ = None →
            cov (world_after_add W o σ) (ro_Index o))
  ∧ (∀ σ activeResourceOffers σ' i,
       w_GetResourceOffers W (active_offers_query W) σ = (activeResourceOffers, None, σ') →
       cov σ i → i ∈ covered activeResourceOffers).

(** A solver that lists nothing else: an index in a list it gives is the
    index of an active offer. *)
Definition lists_only_kept (cov : Σ → Z → Prop) : Prop :=
  ∀ σ activeResourceOffers σ' i,
    w_GetResourceOffers W (active_offers_query W) σ = (activeResourceOffers, None, σ') →
    i ∈ covered activeResourceOffers → cov σ i.

(** The indices of the offers a trace submits, in order. *)
Definition added_indices (d : list Action) : list Z := ro_Index <$> add_calls d.

(** The catalogue has a position [i]. *)
Definition in_catalogue (i : Z) : Prop :=
  0 ≤ i < Z.of_nat (length (Offers_Specs options)).

(** How a run of [Start] went. *)
Inductive StartRun :=
| Started (errorChan : nat)
| SolverClientFailed (e : error)
| Web3EventsFailed (e : error).

(** The trace [Start] leaves for each, on the channel [c] it made. *)
Definition start_trace (c : nat) (r : StartRun) : list Action :=
  match r with
  | Started _ => setup_actions
  | SolverClientFailed e =>
      [SubscribeEvents SolverEventHandler; SubscribeDealStateChange DealStateChangeHandler;
       SolverClientStart; ChanSend c e]
  | Web3EventsFailed e =>
      [SubscribeEvents SolverEventHandler; SubscribeDealStateChange DealStateChangeHandler;
       SolverClientStart; Web3EventsStart; ChanSend c e]
  end.

End RunSpecification.

(** * What the collaborators call back *)

Section Callbacks.
Context {MachineSpec OfferMode DealPricing DealTimeouts TrustedPartiesT : Type}.
Context {Deal StorageDealStateChange : Type}.
Context (Deal_ResourceProvider : Deal → string).
Context {Σ : Type}.

Abbreviation World :=
  (@World MachineSpec OfferMode DealPricing DealTimeouts TrustedPartiesT Deal Σ).
Abbreviation Action :=
  (@Action MachineSpec OfferMode DealPricing DealTimeouts TrustedPartiesT Deal
     StorageDealStateChange).
Abbreviation M :=
  (@M MachineSpec OfferMode DealPricing DealTimeouts TrustedPartiesT Deal
     StorageDealStateChange Σ).

Context (W : World).

(** Something arrives for the controller: a solver event for the closure of
    [subscribeToSolver], or a change of a deal's state on the ledger for the
    closure of [subscribeToWeb3]. *)
Inductive Delivery :=
| SolverEventDelivered (ev : @SolverEvent Deal)
| DealStateChangeDelivered (ev : StorageDealStateChange).

(** The collaborator calls the closure registered for it. *)
Definition run_callback (x : Delivery) : M unit :=
  match x with
  | SolverEventDelivered ev => solverEventHandler Deal_ResourceProvider W ev
  | DealStateChangeDelivered ev => dealStateChangeHandler ev
  end.

(** What a closure leaves in the trace for what arrived. *)
Definition callback_lines (x : Delivery) : list Action :=
  match x with
  | SolverEventDelivered ev =>
      ServiceLogSolverEvent ResourceProviderService ev ::
        match ev_EventType ev, ev_Deal ev with
        | DealAdded, None =>
            [log_event ErrorLevel "solver event" (DataError (Errorf "RP received nil deal"))]
        | _, _ => []
        end
  | DealStateChangeDelivered ev =>
      [log_event InfoLevel "StorageDealStateChange" (DataStateChange ev)]
  end.

(** The events handed to [solver.ServiceLogSolverEvent] in a trace, and the
    solver events among what arrived. *)
Definition service_logged (d : list Action) : list (@SolverEvent Deal) :=
  omap (λ a, match a with ServiceLogSolverEvent _ ev => Some ev | _ => None end) d.

Definition solver_events (l : list Delivery) : list (@SolverEvent Deal) :=
  omap (λ x, match x with SolverEventDelivered ev => Some ev | _ => None end) l.

(** A closure only logs. *)
Definition logging (a : Action) : Prop :=
  match a with
  | Log e => log_service e = ResourceProviderService ∧ log_skip e = 4
  | ServiceLogSolverEvent service _ => service = ResourceProviderService
  | _ => False
  end.

End Callbacks.

(** * Setting up the logger *)

Section Logging.
Context {MachineSpec OfferMode DealPricing DealTimeouts TrustedPartiesT : Type}.
Context {Deal StorageDealStateChange : Type}.
Context {Σ : Type}.

Abbreviation M :=
  (@M MachineSpec OfferMode DealPricing DealTimeouts TrustedPartiesT Deal
     StorageDealStateChange Σ).

(** [zerolog.Level] with its [InfoLevel], [zerolog.ParseLevel] and the
    environment of the process are not the program's: the embedding takes
    them as given. *)
Context {zerolog_Level : Type} (zerolog_InfoLevel : zerolog_Level).
Context (zerolog_ParseLevel : string → zerolog_Level * option error).
Context (os_Getenv : string → string).

(** [zerolog.ConsoleWriter{Out: os.Stdout, TimeFormat: time.RFC3339}]. *)
Record ConsoleWriter := { Out : string; TimeFormat : string }.

(** The logger [log.Output(output).With().Caller().Logger().Level(logLevel)]. *)
Record Logger := {
  logger_output : ConsoleWriter;
  logger_with_caller : bool;
  logger_level : zerolog_Level
}.

(** [SetupLogging()].  It assigns two globals: [zerolog.CallerSkipFrameCount],
    which the state has, and [log.Logger], which the embedding returns. *)
Definition SetupLogging : M Logger :=
  let output := {| Out := "os.Stdout"; TimeFormat := "time.RFC3339" |} in
  let logLevelString := os_Getenv "LOG_LEVEL" in
  let logLevelString := if decide (logLevelString = "") then "info" else logLevelString in
  let logLevel := zerolog_InfoLevel in
  let '(parsedLogLevel, err) := zerolog_ParseLevel logLevelString in
  let logLevel := if err is None then parsedLogLevel else logLevel in
  set_CallerSkipFrameCount 3;;
  mret {| logger_output := output; logger_with_caller := true; logger_level := logLevel |}.

End Logging.

(** * Building the controller *)

Section Construction.
Context {MachineSpec OfferMode DealPricing DealTimeouts TrustedPartiesT : Type}.
(** [*web3.Web3SDK], [*solver.SolverClient] and [*web3.EventChannels] are
    handles made elsewhere. *)
Context {Web3SDK SolverClient EventChannels : Type}.
Context {Σ : Type}.

(** [options.Web3], with the fields the constructor reads. *)
Record Web3Options := {
  Web3_SolverAddress : string;
  Web3_PrivateKey : string
}.

(** [ResourceProviderOptions]. *)
Record ResourceProviderOptions := {
  rpo_Offers : @ResourceProviderOfferOptions MachineSpec OfferMode DealPricing DealTimeouts
                 TrustedPartiesT;
  rpo_Web3 : Web3Options
}.

(** [http.ClientOptions]. *)
Record ClientOptions := {
  URL : string;
  PrivateKey : string
}.

Record ResourceProviderController := {
  rpc_solverClient : SolverClient;
  rpc_options : ResourceProviderOptions;
  rpc_web3SDK : Web3SDK;
  rpc_web3Events : EventChannels
}.

(** The calls the constructor makes. *)
Inductive Construction :=
| GetSolverUrl (web3SDK : Web3SDK) (address : string)
| NewSolverClient (o : ClientOptions)
| NewEventChannels.

(** Who answers them: the ledger, asked for the URL of a solver by its
    address, the solver package and the web3 package. *)
Record Factory := {
  f_GetSolverUrl : Web3SDK → string → Σ → (string * option error) * Σ;
  f_NewSolverClient : ClientOptions → Σ → (SolverClient * option error) * Σ;
  f_NewEventChannels : Σ → EventChannels * Σ
}.

Context (F : Factory).

(** [NewResourceProviderController(options, web3SDK)], over the state of the
    world and the calls made so far.  The result is Go's pair of a pointer,
    which may be nil, and an error. *)
Definition NewResourceProviderController (options : ResourceProviderOptions)
    (web3SDK : Web3SDK) (s : Σ * list Construction)
    : (option ResourceProviderController * option error) * (Σ * list Construction) :=
  let '(σ, calls) := s in
  let address := Web3_SolverAddress (rpo_Web3 options) in
  let '(solverUrl, err, σ) := f_GetSolverUrl F web3SDK address σ in
  let calls := calls ++ [GetSolverUrl web3SDK address] in
  if err is Some _ then ((None, err), (σ, calls)) else
  let o := {| URL := solverUrl; PrivateKey := Web3_PrivateKey (rpo_Web3 options) |} in
  let '(solverClient, err, σ) := f_NewSolverClient F o σ in
  let calls := calls ++ [NewSolverClient o] in
  if err is Some _ then ((None, err), (σ, calls)) else
  let '(web3Events, σ) := f_NewEventChannels F σ in
  let calls := calls ++ [NewEventChannels] in
  let controller := {| rpc_solverClient := solverClient; rpc_options := options;
                       rpc_web3SDK := web3SDK; rpc_web3Events := web3Events |} in
  ((Some controller, None), (σ, calls)).

End Construction.

(** ** A solver that stores the offers it is given *)

Module Store.

Abbreviation Container := (@ResourceOfferContainer string string Z Z unit).
Abbreviation World := (@World string string Z Z unit Ex.Deal (list Container)).
Abbreviation St := (@St string string Z Z unit Ex.Deal unit (list Container)).

(** The world is the list of the offers stored.  The solver accepts every
    offer and appends it; asked for the offers of a provider it lists those
    stored under that address.  It has no deal, and the timer always fires. *)
Definition solver : World :=
  {| w_GetAddress := "0xRP";
     w_UnixNano := λ σ, (1700000000123456789, σ);
     w_GetDeals := λ _ σ, (([], None), σ);
     w_GetResourceOffers := λ q σ,
       ((filter (λ c, ro_ResourceProvider (roc_ResourceOffer c) = groq_ResourceProvider q) σ,
         None), σ);
     w_AddResourceOffer := λ o σ,
       (({| roc_ID := "new"; roc_ResourceOffer := o |}, None),
        σ ++ [{| roc_ID := "new"; roc_ResourceOffer := o |}]);
     w_SolverClientStart := λ σ, (None, σ);
     w_Web3EventsStart := λ σ, (None, σ);
     w_Select := λ σ, (TimerFired, σ);
     w_Receive := λ σ, (true, σ) |}.

(** The provider has a stored offer of index [i]. *)
Definition active_index (σ : list Container) (i : Z) : Prop :=
  i ∈ covered (filter (λ c, ro_ResourceProvider (roc_ResourceOffer c) = "0xRP") σ).

(** An offer of another provider, with index 1. *)
Definition foreign : Container :=
  {| roc_ID := "other";
     roc_ResourceOffer :=
       {| ro_CreatedAt := 1700000000000; ro_ResourceProvider := "0xOther";
          ro_Index := 1; ro_Spec := "specZ"; ro_Modules := [];
          ro_Mode := "ModeOfferOnly"; ro_DefaultPricing := 1;
          ro_DefaultTimeouts := 3600; ro_ModulePricing := ∅; ro_ModuleTimeouts := ∅;
          ro_TrustedParties := tt |} |}.

(** The goroutine begins with the provider's offer of index 0 and the
    foreign offer stored. *)
Definition begun : St :=
  {| world := [Ex.container 0 "specA"; foreign]; trace := setup_actions;
     CallerSkipFrameCount := 3;
     chans := [{| ch_shared := true; ch_received := [] |}]; goroutines := [] |}.

End Store.

(** * The deployment fixtures of the contracts' tests

    A shallow embedding of [hardhat/test/fixtures.ts].  The chain, the wallets
    and the contract factories of ethers are outside the fixtures: a [Chain]
    answers every call, or rejects it.  An [async] function becomes a program
    over the chain's state and the calls made so far, which ends with a
    value or with the rejection of the first call that failed; every call of
    the source is awaited where it is made, or is an argument of an awaited
    call. *)

Module Fixtures.

(** The reason a promise was rejected with, or an exception thrown. *)
Inductive Rejection := Rejected (reason : string).

Section Deployment.
(** ethers' signers and contract instances. *)
Context {Signer Contract : Type}.
Context {Σ : Type}.
(** Imported from [utils/web3]. *)
Context (DEFAULT_TOKEN_SUPPLY DEFAULT_TOKENS_PER_ACCOUNT : Z).

(** ethers' [AddressLike]: an address as a string, or something that
    resolves to one; the fixtures pass [contract.getAddress()], not awaited,
    for the latter. *)
Inductive AddressLike := AddressString (a : string) | AddressOf (c : Contract).

(** An argument of a contract's constructor. *)
Inductive Arg := ArgString (s : string) | ArgBigNumberish (n : Z).

(** The calls a fixture makes. *)
Inductive Tx :=
| GetWallet (name : string)
| GetContractFactory (name : string) (signer : Signer)
| Deploy (name : string) (signer : Signer) (args : list Arg)
| Initialize (c : Contract) (signer : Signer) (args : list AddressLike)
| SetControllerAddress (c : Contract) (signer : Signer) (a : AddressLike)
| FundAccountsWithTokens (token : Contract) (amount : Z)
| GetAddress (c : Contract).

Record Chain := {
  c_getWallet : string → Σ → (Signer + Rejection) * Σ;
  c_getContractFactory : string → Signer → Σ → (unit + Rejection) * Σ;
  c_deploy : string → Signer → list Arg → Σ → (Contract + Rejection) * Σ;
  c_initialize : Contract → Signer → list AddressLike → Σ → (unit + Rejection) * Σ;
  c_setControllerAddress : Contract → Signer → AddressLike → Σ → (unit + Rejection) * Σ;
  c_fundAccountsWithTokens : Contract → Z → Σ → (unit + Rejection) * Σ;
  c_getAddress : Contract → Σ → (string + Rejection) * Σ
}.

Context (C : Chain).

(** An [async] function. *)
Definition P (A : Type) : Type := Σ * list Tx → (A + Rejection) * (Σ * list Tx).

#[export] Instance P_ret : MRet P := λ A a s, (inl a, s).

#[export] Instance P_bind : MBind P := λ A B k m s,
  match m s with
  | (inl a, s') => k a s'
  | (inr e, s') => (inr e, s')
  end.

(** A call: it is recorded, then the chain answers and moves on. *)
Definition tx {A} (t : Tx) (f : Σ → (A + Rejection) * Σ) : P A := λ s,
  let '(r, σ) := f s.1 in (r, (σ, s.2 ++ [t])).

(** JavaScript's [if(controllerAddress)]: an address that was not given, and
    the empty string, are false. *)
Definition truthy (a : option AddressLike) : bool :=
  match a with
  | None => false
  | Some (AddressString s) => if decide (s = "") then false else true
  | Some (AddressOf _) => true
  end.

(** ** Deployment *)

Definition deployContract (name : string) (signer : Signer) (args : list Arg) : P Contract :=
  factory ← tx (GetContractFactory name signer) (c_getContractFactory C name signer);
  contract ← tx (Deploy name signer args) (c_deploy C name signer args);
  mret contract.

Definition deployToken (signer : Signer) (tokenSupply : Z) (testMode : bool) : P Contract :=
  deployContract (if testMode then "LilypadTokenTestable" else "LilypadToken") signer
    [ArgString "LilyPad"; ArgString "LLY"; ArgBigNumberish tokenSupply].

Definition deployPayments (signer : Signer) (tokenAddress : AddressLike) (testMode : bool)
    : P Contract :=
  payments ← deployContract
               (if testMode then "LilypadPaymentsTestable" else "LilypadPayments") signer [];
  tx (Initialize payments signer [tokenAddress])
     (c_initialize C payments signer [tokenAddress]);;
  mret payments.

Definition deployStorage (signer : Signer) (testMode : bool) : P Contract :=
  deployContract (if testMode then "LilypadStorageTestable" else "LilypadStorage") signer [].

Definition deployController (signer : Signer) (storageAddress paymentsAddress : AddressLike)
    : P Contract :=
  controller ← deployContract "LilypadController" signer [];
  tx (Initialize controller signer [storageAddress; paymentsAddress])
     (c_initialize C controller signer [storageAddress; paymentsAddress]);;
  mret controller.

(** ** Fixtures

    A fixture takes an object whose fields may be left out; a field left out
    is [None], and the defaults of the destructuring apply. *)

(** [if(a) { body }] on an address that may have been left out. *)
Definition when_truthy (a : option AddressLike) (body : AddressLike → P unit) : P unit :=
  match a with
  | Some x => if truthy (Some x) then body x else mret tt
  | None => mret tt
  end.

Definition setupTokenFixture (testMode withFunds : option bool)
    (controllerAddress : option AddressLike) : P Contract :=
  let testMode := default false testMode in
  let withFunds := default false withFunds in
  admin ← tx (GetWallet "admin") (c_getWallet C "admin");
  token ← deployToken admin DEFAULT_TOKEN_SUPPLY testMode;
  (if withFunds
   then tx (FundAccountsWithTokens token DEFAULT_TOKENS_PER_ACCOUNT)
           (c_fundAccountsWithTokens C token DEFAULT_TOKENS_PER_ACCOUNT)
   else mret tt);;
  when_truthy controllerAddress (λ controllerAddress,
    tx (SetControllerAddress token admin controllerAddress)
       (c_setControllerAddress C token admin controllerAddress));;
  mret token.

Definition setupPaymentsFixture (testMode withFunds : option bool)
    (controllerAddress : option AddressLike) : P (Contract * Contract) :=
  let testMode := default false testMode in
  let withFunds := default false withFunds in
  admin ← tx (GetWallet "admin") (c_getWallet C "admin");
  token ← setupTokenFixture (Some false) (Some withFunds) None;
  payments ← deployPayments admin (AddressOf token) testMode;
  tx (SetControllerAddress token admin (AddressOf payments))
     (c_setControllerAddress C token admin (AddressOf payments));;
  when_truthy controllerAddress (λ controllerAddress,
    tx (SetControllerAddress payments admin controllerAddress)
       (c_setControllerAddress C payments admin controllerAddress));;
  mret (token, payments).

Definition setupStorageFixture (testMode : option bool)
    (controllerAddress : option AddressLike) : P Contract :=
  let testMode := default false testMode in
  admin ← tx (GetWallet "admin") (c_getWallet C "admin");
  storage ← deployStorage admin testMode;
  when_truthy controllerAddress (λ controllerAddress,
    tx (SetControllerAddress storage admin controllerAddress)
       (c_setControllerAddress C storage admin controllerAddress));;
  mret storage.

Definition setupControllerFixture (withFunds : option bool)
    : P (Contract * Contract * Contract * Contract) :=
  let withFunds := default false withFunds in
  admin ← tx (GetWallet "admin") (c_getWallet C "admin");
  '(token, payments) ← setupPaymentsFixture None (Some withFunds) None;
  storage ← setupStorageFixture None None;
  storageAddress ← tx (GetAddress storage) (c_getAddress C storage);
  paymentsAddress ← tx (GetAddress payments) (c_getAddress C payments);
  controller ← deployController admin (AddressString storageAddress)
                  (AddressString paymentsAddress);
  controllerAddress ← tx (GetAddress controller) (c_getAddress C controller);
  tx (SetControllerAddress payments admin (AddressString controllerAddress))
     (c_setControllerAddress C payments admin (AddressString controllerAddress));;
  tx (SetControllerAddress storage admin (AddressString controllerAddress))
     (c_setControllerAddress C storage admin (AddressString controllerAddress));;
  mret (token, payments, storage, controller).

(** ** Reading the calls of a fixture *)

(** The contracts a fixture asked to deploy, by name. *)
Definition deployed (d : list Tx) : list string :=
  omap (λ t, match t with Deploy name _ _ => Some name | _ => None end) d.

(** The controller addresses set, with the contract each was set on. *)
Definition controllers_set (d : list Tx) : list (Contract * AddressLike) :=
  omap (λ t, match t with SetControllerAddress c _ a => Some (c, a) | _ => None end) d.

(** The contracts initialised, with the addresses each was given. *)
Definition initialized (d : list Tx) : list (Contract * list AddressLike) :=
  omap (λ t, match t with Initialize c _ args => Some (c, args) | _ => None end) d.

(** The tokens handed out. *)
Definition funded (d : list Tx) : list (Contract * Z) :=
  omap (λ t, match t with FundAccountsWithTokens c n => Some (c, n) | _ => None end) d.


(** The address a fixture was given, when it counts as one. *)
Definition given (a : option AddressLike) : list AddressLike :=
  match a with
  | Some x => if truthy (Some x) then [x] else []
  | None => []
  end.

End Deployment.

End Fixtures.

(** ** A chain for examples *)

Module Hardhat.

Abbreviation Chain := (@Fixtures.Chain string nat nat).

(** The address of the contract deployed as number [c]. *)
Definition address (c : nat) : string :=
  match c with
  | 0%nat => "0xA0" | 1%nat => "0xA1" | 2%nat => "0xA2" | 3%nat => "0xA3" | _ => "0xAF"
  end.

(** A chain that takes every call.  Its state counts the contracts
    deployed, and a contract is known by its number. *)
Definition chain : Chain :=
  {| Fixtures.c_getWallet := λ name σ, (inl name, σ);
     Fixtures.c_getContractFactory := λ _ _ σ, (inl tt, σ);
     Fixtures.c_deploy := λ _ _ _ σ, (inl σ, S σ);
     Fixtures.c_initialize := λ _ _ _ σ, (inl tt, σ);
     Fixtures.c_setControllerAddress := λ _ _ _ σ, (inl tt, σ);
     Fixtures.c_fundAccountsWithTokens := λ _ _ σ, (inl tt, σ);
     Fixtures.c_getAddress := λ c σ, (inl (address c), σ) |}.

(** A chain on which the storage contract cannot be deployed. *)
Definition chain_without_storage : Chain :=
  {| Fixtures.c_getWallet := λ name σ, (inl name, σ);
     Fixtures.c_getContractFactory := λ _ _ σ, (inl tt, σ);
     Fixtures.c_deploy := λ name _ _ σ,
       (if decide (name = "LilypadStorage")
        then inr (Fixtures.Rejected "out of gas") else inl σ, S σ);
     Fixtures.c_initialize := λ _ _ _ σ, (inl tt, σ);
     Fixtures.c_setControllerAddress := λ _ _ _ σ, (inl tt, σ);
     Fixtures.c_fundAccountsWithTokens := λ _ _ σ, (inl tt, σ);
     Fixtures.c_getAddress := λ c σ, (inl (address c), σ) |}.

End Hardhat.

(** * Properties *)

Section Properties.
Context {MachineSpec OfferMode DealPricing DealTimeouts TrustedPartiesT : Type}.
Context {Deal StorageDealStateChange : Type}.
Context (Deal_ResourceProvider : Deal → string).
Context {Σ : Type}.

Abbreviation World :=
  (@World MachineSpec OfferMode DealPricing DealTimeouts TrustedPartiesT Deal Σ).
Abbreviation St :=
  (@St MachineSpec OfferMode DealPricing DealTimeouts TrustedPartiesT Deal
     StorageDealStateChange Σ).
Abbreviation Action :=
  (@Action MachineSpec OfferMode DealPricing DealTimeouts TrustedPartiesT Deal
     StorageDealStateChange).
Abbreviation ResourceOffer :=
  (@ResourceOffer MachineSpec OfferMode DealPricing DealTimeouts TrustedPartiesT).
Abbreviation ResourceOfferContainer :=
  (@ResourceOfferContainer MachineSpec OfferMode DealPricing DealTimeouts TrustedPartiesT).
Abbreviation M :=
  (@M MachineSpec OfferMode DealPricing DealTimeouts TrustedPartiesT Deal
     StorageDealStateChange Σ).
Abbreviation Outcome :=
  (@Outcome MachineSpec OfferMode DealPricing DealTimeouts TrustedPartiesT Deal
     StorageDealStateChange Σ).

Context (W : World).
Context (options : @ResourceProviderOfferOptions MachineSpec OfferMode DealPricing
                     DealTimeouts TrustedPartiesT).

Implicit Types (s : St) (σ : Σ) (d : list Action) (e : error).
Implicit Types (spec : MachineSpec) (specs : list MachineSpec).
Implicit Types (o : ResourceOffer) (offers : list ResourceOffer).

Lemma st_after_after s σ d n σ' d' n' :
  st_after (st_after s σ d n) σ' d' n' = st_after s σ' (d ++ d') n'.
Proof. unfold st_after; simpl. by rewrite (assoc_L (++)). Qed.

Lemma st_after_id s : st_after s (world s) [] (CallerSkipFrameCount s) = s.
Proof. destruct s; unfold st_after; simpl. by rewrite (right_id_L [] (++)). Qed.

Lemma bind_run {A B} (m : M A) (k : A → M B) s a s' :
  m s = Returns a s' → (m ≫= k) s = k a s'.
Proof. unfold mbind, M_bind. by intros ->. Qed.

Lemma logWithCaller_run level title data s :
  logWithCaller 4 level ResourceProviderService title data s
  = Returns tt (st_after s (world s) [log_event level title data] 3).
Proof. reflexivity. Qed.

Lemma call_run {A} (a : Action) (f : Σ → A * Σ) s :
  call a f s = Returns (f (world s)).1 (st_after s (f (world s)).2 [a] (CallerSkipFrameCount s)).
Proof. unfold call. by destruct (f (world s)). Qed.

(** A loop of log lines. *)
Lemma for_range_Info {A} (l : list A) title (data : A → _) s :
  for_range l (λ x, Info ResourceProviderService title (data x)) s
  = Returns tt (st_after s (world s) ((λ x, log_event InfoLevel title (data x)) <$> l)
                  (if l is [] then CallerSkipFrameCount s else 3)).
Proof.
  revert s. induction l as [|x l IH]; intros s; simpl.
  - unfold mret, M_ret. by rewrite st_after_id.
  - erewrite bind_run by apply logWithCaller_run.
    rewrite IH, st_after_after. simpl. by destruct l.
Qed.

(** ** Agree to deals *)

Lemma agree_calls_logs {A} (l : list A) title data :
  agree_calls ((λ x, log_event (Deal := Deal) InfoLevel title (data x)) <$> l
               : list Action) = [].
Proof. by induction l. Qed.

(** What [agreeToDeals] does with the answer to its query: nothing when the
    query failed, a log line for each deal otherwise. *)
Lemma agreeToDeals_run s :
  let q := negotiating_deals_query W in
  let '(negotiatingDeals, err, σ) := w_GetDeals W q (world s) in
  ∃ n, agreeToDeals W s
       = Returns err
           (st_after s σ
              (GetDeals q ::
                 match err with
                 | Some _ => []
                 | None => (λ deal, log_event InfoLevel "agree to deal" (DataDeal deal))
                             <$> negotiatingDeals
                 end) n).
Proof.
  intros q. destruct (w_GetDeals W q (world s)) as [[deals err] σ] eqn:Hq.
  unfold agreeToDeals. fold (negotiating_deals_query W). fold q.
  erewrite bind_run by apply call_run. rewrite Hq. simpl.
  destruct err as [e|]; [by eexists|].
  case_bool_decide as Hlen.
  - destruct deals; [|simpl in Hlen; lia]. by eexists.
  - erewrite bind_run by apply for_range_Info.
    rewrite st_after_after. by eexists.
Qed.

(** C1, as the code has it: [agreeToDeals] makes one call to the solver, the
    deals query for the provider's own address and the state
    [DealNegotiating].  When the query fails it returns the query's error
    and does nothing else; when the query returns no deal it returns nil and
    does nothing else; otherwise it logs one line [agree to deal] for each
    returned deal, in order, and returns nil.  It never issues the on-ledger
    agreement. *)
Theorem agreeToDeals_queries_and_logs s :
  let q := {| gdq_ResourceProvider := w_GetAddress W; gdq_State := "DealNegotiating" |} in
  let '(negotiatingDeals, err, σ) := w_GetDeals W q (world s) in
  let processed : list Action :=
    match err, negotiatingDeals with
    | Some _, _ => []
    | None, [] => []
    | None, _ => (λ deal, log_event InfoLevel "agree to deal" (DataDeal deal))
                   <$> negotiatingDeals
    end in
  (∃ n, agreeToDeals W s = Returns err (st_after s σ (GetDeals q :: processed) n))
  ∧ agree_calls (GetDeals q :: processed) = [].
Proof.
  intros q. pose proof (agreeToDeals_run s) as Hrun. cbn zeta in Hrun.
  change (negotiating_deals_query W) with q in Hrun.
  destruct (w_GetDeals W q (world s)) as [[deals err] σ].
  destruct Hrun as [n Hrun]. simpl. split.
  - exists n. rewrite Hrun. by destruct err, deals.
  - destruct err, deals; try done. apply (agree_calls_logs (_ :: _)).
Qed.

(** ** Ensure resource offers *)


Lemma int64_range z : - 2 ^ 63 ≤ int64 z < 2 ^ 63.
Proof. unfold int64. pose proof (Z.mod_pos_bound (z + 2 ^ 63) (2 ^ 64)). lia. Qed.

Lemma int64_small z : - 2 ^ 63 ≤ z < 2 ^ 63 → int64 z = z.
Proof. intros Hz. unfold int64. rewrite Z.mod_small; lia. Qed.

Lemma quot_Millisecond_range z :
  - 2 ^ 63 ≤ z < 2 ^ 63 → - 2 ^ 63 ≤ z `quot` 1000000 < 2 ^ 63.
Proof.
  intros Hz. pose proof (Z.quot_rem' z 1000000) as Hqr.
  destruct (Z.le_gt_cases 0 z) as [Hpos|Hneg].
  - pose proof (Z.rem_bound_pos_pos z 1000000). lia.
  - pose proof (Z.rem_bound_pos_neg z 1000000). lia.
Qed.

Lemma getResourceOffer_run index spec s :
  getResourceOffer W options index spec s
  = Returns (offer_at W options (w_UnixNano W (world s)).1 index spec)
      (st_after s (w_UnixNano W (world s)).2 [] (CallerSkipFrameCount s)).
Proof.
  unfold getResourceOffer, time_Now_UnixNano, mbind, M_bind, mret, M_ret.
  destruct (w_UnixNano W (world s)) as [t σ]; simpl.
  unfold st_after, st_world, offer_at; simpl. rewrite (right_id_L [] (++)).
  do 2 f_equal. unfold int, time_Millisecond.
  rewrite (int64_small 1000000) by lia.
  pose proof (quot_Millisecond_range _ (int64_range t)).
  by rewrite !(int64_small (int64 t `quot` 1000000)).
Qed.

Lemma existingResourceOffersMap_of_lookup
    (activeResourceOffers : list ResourceOfferContainer) i :
  existingResourceOffersMap_of activeResourceOffers !! i = None
  ↔ i ∉ covered activeResourceOffers.
Proof.
  unfold existingResourceOffersMap_of, covered.
  cut (∀ m : gmap Z ResourceOfferContainer,
    foldl (λ m c, <[ro_Index (roc_ResourceOffer c) := c]> m) m activeResourceOffers !! i = None
    ↔ m !! i = None
      ∧ i ∉ (λ c, ro_Index (roc_ResourceOffer c)) <$> activeResourceOffers).
  { intros ->. rewrite lookup_empty. tauto. }
  induction activeResourceOffers as [|c l IH]; intros m; simpl.
  - rewrite elem_of_nil. tauto.
  - rewrite IH, lookup_insert_None, not_elem_of_cons.
    split; [intros [[Hm Hne] Hl]|intros [Hm [Hne Hl]]]; repeat split; auto.
Qed.

Lemma positions_cons index spec specs :
  positions index (spec :: specs) = (index, spec) :: positions (Z.succ index) specs.
Proof.
  unfold positions. cbn [length].
  by rewrite Nat2Z.inj_succ, seqZ_cons, Z.pred_succ by lia.
Qed.

Lemma positions_fst index specs :
  (positions index specs).*1 = seqZ index (Z.of_nat (length specs)).
Proof. unfold positions. apply fst_zip. rewrite length_seqZ. lia. Qed.

Lemma positions_lookup index specs i spec :
  (i, spec) ∈ positions index specs
  ↔ index ≤ i ∧ specs !! Z.to_nat (i - index) = Some spec.
Proof.
  revert index. induction specs as [|sp specs IH]; intros index.
  - unfold positions. simpl. rewrite elem_of_nil, lookup_nil. split; [tauto|by intros [_ ?]].
  - rewrite positions_cons, elem_of_cons, IH. split.
    + intros [[= -> ->]|[Hle Hl]].
      * by rewrite Z.sub_diag.
      * split; [lia|]. replace (Z.to_nat (i - index)) with (S (Z.to_nat (i - Z.succ index))) by lia.
        done.
    + intros [Hle Hl]. destruct (decide (i = index)) as [->|Hne].
      * rewrite Z.sub_diag in Hl. left. simpl in Hl. by injection Hl as ->.
      * right. split; [lia|].
        replace (Z.to_nat (i - index)) with (S (Z.to_nat (i - Z.succ index))) in Hl by lia.
        done.
Qed.

Lemma filter_positions_fst (P : Z → Prop) `{!∀ i, Decision (P i)} index specs :
  (filter (λ p, P p.1) (positions index specs)).*1
  = filter P (seqZ index (Z.of_nat (length specs))).
Proof.
  rewrite <- positions_fst. generalize (positions index specs). intros l.
  induction l as [|p l IH]; [done|].
  rewrite fmap_cons, !filter_cons.
  destruct (decide (P p.1)); [rewrite fmap_cons|]; by rewrite IH.
Qed.

(** The second loop builds, without any call but to the clock, one offer for
    each uncovered position of the catalogue, in catalogue order. *)
Lemma for_range_index_collect (m : gmap Z ResourceOfferContainer) specs index acc s :
  ∃ offers σ,
    for_range_index index specs (λ index spec addResourceOffers,
      match m !! index with
      | Some _ => mret addResourceOffers
      | None =>
          resourceOffer ← getResourceOffer W options index spec;
          mret (addResourceOffers ++ [resourceOffer])
      end) acc s
    = Returns (acc ++ offers) (st_after s σ [] (CallerSkipFrameCount s))
    ∧ Forall2 (λ o p, ∃ nanos, o = offer_at W options nanos p.1 p.2) offers
        (filter (λ p, m !! p.1 = None) (positions index specs)).
Proof.
  revert index acc s. induction specs as [|spec specs IH]; intros index acc s.
  - exists [], (world s). simpl. unfold mret, M_ret.
    rewrite st_after_id, (right_id_L [] (++)). split; [done|]. constructor.
  - cbn [for_range_index]. rewrite positions_cons, filter_cons.
    replace (index + 1) with (Z.succ index) by lia. cbn [fst].
    destruct (m !! index) as [c|] eqn:Hm.
    + destruct (IH (Z.succ index) acc s) as (offers & σ & Hrun & Hall).
      exists offers, σ. split.
      * by unfold mbind at 1, M_bind at 1, mret at 1, M_ret at 1.
      * by rewrite decide_False.
    + rewrite decide_True by done.
      set (o := offer_at W options (w_UnixNano W (world s)).1 index spec).
      set (s1 := st_after s (w_UnixNano W (world s)).2 [] (CallerSkipFrameCount s)).
      destruct (IH (Z.succ index) (acc ++ [o]) s1) as (offers & σ & Hrun & Hall).
      exists (o :: offers), σ. split.
      * erewrite bind_run; [|erewrite bind_run by apply getResourceOffer_run; reflexivity].
        fold o s1. rewrite Hrun. unfold s1. rewrite st_after_after.
        by rewrite <- (assoc_L (++)).
      * constructor; [by eexists|done].
Qed.

Lemma add_calls_add_lines offers : add_calls (add_lines offers : list Action) = offers.
Proof. induction offers as [|o l IH]; [done|]. simpl. by rewrite IH. Qed.

(** One iteration of the third loop. *)
Lemma add_one_run o s :
  (Info ResourceProviderService "add resource offer" (DataResourceOffer o);;
   '(_, err) ← call (AddResourceOffer o) (w_AddResourceOffer W o);
   if err is Some _ then mret (Some err) else mret None) s
  = Returns (if add_error W o (world s) is Some _ then Some (add_error W o (world s)) else None)
      (st_after s (world_after_add W o (world s)) (add_lines [o]) 3).
Proof.
  erewrite bind_run by apply logWithCaller_run.
  erewrite bind_run by apply call_run.
  unfold add_error, world_after_add. simpl.
  destruct (w_AddResourceOffer W o (world s)) as [[c [e|]] σ]; simpl;
    unfold mret, M_ret; by rewrite st_after_after.
Qed.

(** When the solver accepts them all, the third loop submits them all. *)
Lemma addCollectedResourceOffers_all offers s :
  adds_accepted W offers (world s) →
  addCollectedResourceOffers W offers s
  = Returns None (st_after s (world_after_adds W offers (world s)) (add_lines offers)
                    (if offers is [] then CallerSkipFrameCount s else 3)).
Proof.
  revert s. induction offers as [|o l IH]; intros s Hacc.
  - simpl. unfold mret, M_ret. by rewrite st_after_id.
  - destruct Hacc as [Ho Hl]. unfold addCollectedResourceOffers in *.
    cbn [for_range_return]. erewrite bind_run by apply add_one_run.
    rewrite Ho, IH by done. rewrite st_after_after. simpl. by destruct l.
Qed.

(** When the solver refuses one, the loop returns its error there: the
    offers before it were submitted, those after it are not. *)
Lemma addCollectedResourceOffers_fail accepted o rest e s :
  adds_accepted W accepted (world s) →
  add_error W o (world_after_adds W accepted (world s)) = Some e →
  addCollectedResourceOffers W (accepted ++ o :: rest) s
  = Returns (Some (Some e))
      (st_after s (world_after_add W o (world_after_adds W accepted (world s)))
         (add_lines (accepted ++ [o])) 3).
Proof.
  revert s. induction accepted as [|o' l IH]; intros s Hacc Hfail.
  - unfold addCollectedResourceOffers. simpl app. cbn [for_range_return].
    erewrite bind_run by apply add_one_run. simpl in Hfail. by rewrite Hfail.
  - destruct Hacc as [Ho Hl]. unfold addCollectedResourceOffers in *.
    simpl app. cbn [for_range_return]. erewrite bind_run by apply add_one_run.
    rewrite Ho, IH by done. by rewrite st_after_after.
Qed.

(** Either the solver accepts all the offers, or there is a first it refuses. *)
Lemma adds_accepted_or_refused offers σ :
  adds_accepted W offers σ
  ∨ ∃ accepted o rest e,
      offers = accepted ++ o :: rest
      ∧ adds_accepted W accepted σ
      ∧ add_error W o (world_after_adds W accepted σ) = Some e.
Proof.
  revert σ. induction offers as [|o l IH]; intros σ; [by left|].
  destruct (add_error W o σ) as [e|] eqn:Ho.
  - right. by exists [], o, l, e.
  - destruct (IH (world_after_add W o σ)) as [Hl|(acc & o' & rest & e & -> & Hacc & Hfail)].
    + by left.
    + right. by exists (o :: acc), o', rest, e.
Qed.

Lemma missing_positions_fst (activeResourceOffers : list ResourceOfferContainer) :
  (missing_positions options activeResourceOffers).*1 = missing options activeResourceOffers.
Proof.
  unfold missing_positions, missing.
  exact (filter_positions_fst (λ i, i ∉ covered activeResourceOffers) 0
           (Offers_Specs options)).
Qed.

Lemma elem_of_missing (activeResourceOffers : list ResourceOfferContainer) i :
  i ∈ missing options activeResourceOffers
  ↔ 0 ≤ i < Z.of_nat (length (Offers_Specs options)) ∧ i ∉ covered activeResourceOffers.
Proof. unfold missing. rewrite list_elem_of_filter, elem_of_seqZ. intuition lia. Qed.

Lemma NoDup_missing (activeResourceOffers : list ResourceOfferContainer) :
  NoDup (missing options activeResourceOffers).
Proof. apply NoDup_filter, NoDup_seqZ. Qed.

(** The offers the second loop collects: one for each uncovered position, in
    catalogue order, built as the spec asks; no call is made for them. *)
Lemma collectResourceOffers_run (activeResourceOffers : list ResourceOfferContainer) s :
  ∃ offers σ,
    collectResourceOffers W options (existingResourceOffersMap_of activeResourceOffers) s
    = Returns offers (st_after s σ [] (CallerSkipFrameCount s))
    ∧ Forall2 (λ o p, ∃ nanos, o = offer_at W options nanos p.1 p.2) offers
        (missing_positions options activeResourceOffers).
Proof.
  destruct (for_range_index_collect (existingResourceOffersMap_of activeResourceOffers)
              (Offers_Specs options) 0 [] s) as (offers & σ & Hrun & Hall).
  exists offers, σ. split; [done|]. unfold missing_positions.
  erewrite list_filter_iff; [done|].
  intros p. simpl. symmetry. apply existingResourceOffersMap_of_lookup.
Qed.

Lemma collected_positions offers (l : list (Z * MachineSpec)) :
  Forall2 (λ o p, ∃ nanos, o = offer_at W options nanos p.1 p.2) offers l →
  offer_position <$> offers = l.
Proof.
  induction 1 as [|o [i spec] offers l [nanos ->] _ IH]; [done|].
  rewrite fmap_cons. by f_equal.
Qed.

Lemma ensureResourceOffers_query_failed s e :
  (w_GetResourceOffers W (active_offers_query W) (world s)).1.2 = Some e →
  ensureResourceOffers W options s
  = Returns (Some e)
      (st_after s (w_GetResourceOffers W (active_offers_query W) (world s)).2
         [GetResourceOffers (active_offers_query W)] (CallerSkipFrameCount s)).
Proof.
  intros He. unfold ensureResourceOffers. fold (active_offers_query W).
  erewrite bind_run by apply call_run.
  destruct (w_GetResourceOffers W (active_offers_query W) (world s)) as [[l err] σ].
  simpl in *. by subst err.
Qed.

(** After a successful query the outcome is that of the third loop on the
    collected offers. *)
Lemma ensureResourceOffers_query_succeeded s activeResourceOffers σ1 :
  w_GetResourceOffers W (active_offers_query W) (world s) = (activeResourceOffers, None, σ1) →
  ∃ offers σ2,
    let s2 := st_after s σ2 [GetResourceOffers (active_offers_query W)]
                (CallerSkipFrameCount s) in
    collectResourceOffers W options (existingResourceOffersMap_of activeResourceOffers)
      (st_after s σ1 [GetResourceOffers (active_offers_query W)] (CallerSkipFrameCount s))
    = Returns offers s2
    ∧ offer_position <$> offers = missing_positions options activeResourceOffers
    ∧ Forall (λ o, ∃ nanos, o = offer_at W options nanos (ro_Index o) (ro_Spec o)) offers
    ∧ ensureResourceOffers W options s
      = match addCollectedResourceOffers W offers s2 with
        | Returns (Some r) s3 => Returns r s3
        | Returns None s3 => Returns None s3
        | Panics s3 => Panics s3
        | Blocks s3 => Blocks s3
        | Running s3 => Running s3
        end.
Proof.
  intros Hq.
  set (s1 := st_after s σ1 [GetResourceOffers (active_offers_query W)]
               (CallerSkipFrameCount s)).
  destruct (collectResourceOffers_run activeResourceOffers s1)
    as (offers & σ2 & Hrun & Hall).
  exists offers, σ2. simpl. unfold s1 in Hrun. rewrite st_after_after in Hrun.
  split_and!.
  - done.
  - by apply collected_positions.
  - clear Hrun. induction Hall as [|o p ? ? [nanos ->] _ IH]; constructor; [|done].
    by exists nanos.
  - unfold ensureResourceOffers. fold (active_offers_query W).
    erewrite bind_run by apply call_run. rewrite Hq. cbn [fst snd].
    fold s1. unfold s1. erewrite bind_run by apply Hrun.
    unfold mbind, M_bind.
    by destruct (addCollectedResourceOffers W offers _) as [[r|] s3|s3|s3|s3].
Qed.

(** The two ways a cycle of [ensureResourceOffers] ends once the query has
    succeeded: the solver took every collected offer, or it refused one and
    the offers after that one were never submitted. *)
Lemma ensureResourceOffers_cases s activeResourceOffers σ1 :
  w_GetResourceOffers W (active_offers_query W) (world s) = (activeResourceOffers, None, σ1) →
  ∃ offers σ2,
    collectResourceOffers W options (existingResourceOffersMap_of activeResourceOffers)
      (st_after s σ1 [GetResourceOffers (active_offers_query W)] (CallerSkipFrameCount s))
    = Returns offers (st_after s σ2 [GetResourceOffers (active_offers_query W)]
                        (CallerSkipFrameCount s))
    ∧ offer_position <$> offers = missing_positions options activeResourceOffers
    ∧ Forall (λ o, ∃ nanos, o = offer_at W options nanos (ro_Index o) (ro_Spec o)) offers
    ∧ ((adds_accepted W offers σ2
        ∧ ensureResourceOffers W options s
          = Returns None
              (st_after s (world_after_adds W offers σ2)
                 (GetResourceOffers (active_offers_query W) :: add_lines offers)
                 (if offers is [] then CallerSkipFrameCount s else 3)))
       ∨ (∃ accepted o rest e,
            offers = accepted ++ o :: rest
            ∧ adds_accepted W accepted σ2
            ∧ add_error W o (world_after_adds W accepted σ2) = Some e
            ∧ ensureResourceOffers W options s
              = Returns (Some e)
                  (st_after s (world_after_add W o (world_after_adds W accepted σ2))
                     (GetResourceOffers (active_offers_query W)
                        :: add_lines (accepted ++ [o])) 3))).
Proof.
  intros Hq.
  destruct (ensureResourceOffers_query_succeeded s _ _ Hq)
    as (offers & σ2 & Hcollect & Hpos & Hbuilt & Hrun).
  exists offers, σ2. split_and!; try done.
  destruct (adds_accepted_or_refused offers σ2)
    as [Hacc|(accepted & o & rest & e & -> & Hacc & Hfail)].
  - left. split; [done|]. rewrite Hrun. cbn zeta.
    rewrite addCollectedResourceOffers_all by done.
    by rewrite st_after_after.
  - right. exists accepted, o, rest, e. split_and!; try done.
    rewrite Hrun. cbn zeta.
    erewrite addCollectedResourceOffers_fail by done.
    by rewrite st_after_after.
Qed.

Lemma fmap_prefix_snoc {A B} (f : A → B) (l : list A) x rest :
  f <$> l ++ [x] `prefix_of` f <$> l ++ x :: rest.
Proof. exists (f <$> rest). by rewrite <- fmap_app, <- (assoc_L (++)). Qed.

Lemma add_calls_cycle q offers :
  add_calls (GetResourceOffers q :: add_lines offers : list Action) = offers.
Proof. apply add_calls_add_lines. Qed.

(** C3: given the snapshot of active offers, [ensureResourceOffers] submits
    offers for uncovered catalogue positions only, in catalogue order, each
    carrying its position as index and its catalogue entry as spec, and never
    two for the same index; when it returns nil it has submitted exactly one
    for every uncovered position; when every position is covered it submits
    none and returns nil; and it returns nil whenever the solver accepts what
    it is given. *)
Theorem ensureResourceOffers_adds_each_missing_index_once s activeResourceOffers σ1 :
  w_GetResourceOffers W (active_offers_query W) (world s) = (activeResourceOffers, None, σ1) →
  ∃ r σ d n,
    ensureResourceOffers W options s = Returns r (st_after s σ d n)
    ∧ offer_position <$> add_calls d `prefix_of` missing_positions options activeResourceOffers
    ∧ NoDup (ro_Index <$> add_calls d)
    ∧ (r = None → ro_Index <$> add_calls d = missing options activeResourceOffers)
    ∧ (missing options activeResourceOffers = [] → r = None ∧ add_calls d = [])
    ∧ ((∀ o σ, add_error W o σ = None) → r = None).
Proof.
  intros Hq.
  destruct (ensureResourceOffers_cases s _ _ Hq)
    as (offers & σ2 & _ & Hpos & _ & [[Hacc Hrun]|(acc & o & rest & e & -> & Hacc & He & Hrun)]).
  - do 4 eexists. split; [exact Hrun|]. rewrite add_calls_cycle.
    assert (ro_Index <$> offers = missing options activeResourceOffers) as Hidx.
    { rewrite <- missing_positions_fst, <- Hpos, <- list_fmap_compose. done. }
    split_and!; try done.
    + by rewrite Hpos.
    + rewrite Hidx. apply NoDup_missing.
    + intros Hnil. split; [done|]. rewrite Hnil in Hidx. by destruct offers.
  - do 4 eexists. split; [exact Hrun|]. rewrite add_calls_cycle.
    assert (ro_Index <$> acc ++ o :: rest = missing options activeResourceOffers) as Hidx.
    { rewrite <- missing_positions_fst, <- Hpos, <- list_fmap_compose. done. }
    split_and!; try done.
    + rewrite <- Hpos. apply fmap_prefix_snoc.
    + pose proof (NoDup_missing activeResourceOffers) as Hnd. rewrite <- Hidx in Hnd.
      destruct (fmap_prefix_snoc ro_Index acc o rest) as [k Hk].
      rewrite Hk in Hnd. by apply NoDup_app in Hnd as [? _].
    + intros Hnil. rewrite Hnil in Hidx. by destruct acc.
    + intros Hall. by rewrite Hall in He.
Qed.

(** C7: when the query for the active offers fails, [ensureResourceOffers]
    returns the query's error having made no other call; when the solver
    refuses an offer, it returns that error at once: the offers collected
    after the refused one are not submitted, and nothing is done about those
    the solver accepted before it. *)
Theorem ensureResourceOffers_fails_fast s activeResourceOffers err σ1 :
  w_GetResourceOffers W (active_offers_query W) (world s) = (activeResourceOffers, err, σ1) →
  let s1 := st_after s σ1 [GetResourceOffers (active_offers_query W)]
              (CallerSkipFrameCount s) in
  match err with
  | Some e =>
      ensureResourceOffers W options s = Returns (Some e) s1
      ∧ add_calls (drop (length (trace s)) (trace s1)) = []
  | None =>
      ∀ offers s2 accepted o rest e,
        collectResourceOffers W options
          (existingResourceOffersMap_of activeResourceOffers) s1 = Returns offers s2 →
        offers = accepted ++ o :: rest →
        adds_accepted W accepted (world s2) →
        add_error W o (world_after_adds W accepted (world s2)) = Some e →
        ensureResourceOffers W options s
        = Returns (Some e)
            (st_after s (world_after_add W o (world_after_adds W accepted (world s2)))
               (GetResourceOffers (active_offers_query W) :: add_lines (accepted ++ [o])) 3)
        ∧ add_calls (GetResourceOffers (active_offers_query W)
                       :: add_lines (accepted ++ [o]) : list Action)
          = accepted ++ [o]
  end.
Proof.
  intros Hq s1. destruct err as [e|].
  - split.
    + rewrite (ensureResourceOffers_query_failed s e) by by rewrite Hq.
      by rewrite Hq.
    + unfold s1, st_after. cbn [trace]. by rewrite drop_app_length.
  - intros offers s2 accepted o rest e Hcollect -> Hacc He.
    split; [|apply add_calls_cycle].
    destruct (ensureResourceOffers_query_succeeded s _ _ Hq)
      as (offers' & σ2 & Hcollect' & _ & _ & Hrun).
    cbn zeta in Hcollect'. fold s1 in Hcollect'. rewrite Hcollect in Hcollect'.
    injection Hcollect' as <- ->.
    rewrite Hrun. cbn zeta.
    erewrite addCollectedResourceOffers_fail by done.
    by rewrite st_after_after.
Qed.

(** C9: every action of [ensureResourceOffers] is the query for the active
    offers, a log line, or an add-offer call for an uncovered catalogue
    position.  So it makes no call about an index an active offer of the
    snapshot covers, whatever that offer's spec, and none about an index
    outside the catalogue; the channels and goroutines are left as they
    were. *)
Theorem ensureResourceOffers_only_adds s :
  let q := active_offers_query W in
  let activeResourceOffers := (w_GetResourceOffers W q (world s)).1.1 in
  ∃ r σ d n,
    ensureResourceOffers W options s = Returns r (st_after s σ d n)
    ∧ Forall (λ a, a = GetResourceOffers q
                   ∨ (∃ o, a = log_event InfoLevel "add resource offer" (DataResourceOffer o))
                   ∨ (∃ o, a = AddResourceOffer o
                           ∧ ro_Index o ∈ missing options activeResourceOffers)) d
    ∧ Forall (λ o, (ro_Index o ∉ covered activeResourceOffers)
                   ∧ (0 ≤ ro_Index o < Z.of_nat (length (Offers_Specs options))))
        (add_calls d).
Proof.
  intros q active. subst active q.
  destruct (w_GetResourceOffers W (active_offers_query W) (world s))
    as [[active' [e|]] σ1] eqn:Hq.
  - do 4 eexists. split; [apply (ensureResourceOffers_query_failed s e); by rewrite Hq|].
    split; [|by constructor]. constructor; [by left|constructor].
  - simpl.
    set (q := active_offers_query W).
    assert (∀ offers : list ResourceOffer,
      ro_Index <$> offers `prefix_of` missing options active' →
      Forall (λ a, a = GetResourceOffers q
                   ∨ (∃ o, a = log_event InfoLevel "add resource offer" (DataResourceOffer o))
                   ∨ (∃ o, a = AddResourceOffer o ∧ ro_Index o ∈ missing options active'))
        (GetResourceOffers q :: add_lines offers : list Action)
      ∧ Forall (λ o, (ro_Index o ∉ covered active')
                     ∧ (0 ≤ ro_Index o < Z.of_nat (length (Offers_Specs options)))) offers)
      as Hshape.
    { intros offers [k Hk].
      assert (Forall (λ o, ro_Index o ∈ missing options active') offers) as Hin.
      { apply Forall_forall. intros o Ho. rewrite Hk. apply elem_of_app. left.
        by apply list_elem_of_fmap_2. }
      clear Hk. split.
      - constructor; [by left|].
        induction Hin as [|o l Ho _ IH]; [constructor|].
        constructor; [right; left; by eexists|].
        constructor; [right; right; by eexists|done].
      - eapply Forall_impl; [exact Hin|]. intros o Ho.
        apply elem_of_missing in Ho. tauto. }
    destruct (ensureResourceOffers_cases s _ _ Hq)
      as (offers & σ2 & _ & Hpos & _ & [[Hacc Hrun]|(acc & o & rest & e & -> & Hacc & He & Hrun)]).
    + do 4 eexists. split; [exact Hrun|]. rewrite add_calls_cycle. apply Hshape.
      rewrite <- missing_positions_fst, <- Hpos, <- list_fmap_compose. done.
    + do 4 eexists. split; [exact Hrun|]. rewrite add_calls_cycle. apply Hshape.
      rewrite <- missing_positions_fst, <- Hpos, <- list_fmap_compose.
      apply (fmap_prefix_snoc (fst ∘ offer_position)).
Qed.

(** C5: the offer [getResourceOffer] builds for a catalogue position has
    that position as index and the catalogue entry as spec, the clock's
    reading in milliseconds as creation time, the provider's own address,
    the modules, mode, default pricing, default timeouts and trusted parties
    of the configuration, and empty per-module pricing and timeouts; and
    every offer [ensureResourceOffers] submits is built that way from a
    position of the catalogue and the entry found there. *)
Theorem getResourceOffer_builds_the_offer index spec s :
  let nanos := (w_UnixNano W (world s)).1 in
  let o := offer_at W options nanos index spec in
  getResourceOffer W options index spec s
  = Returns o (st_after s (w_UnixNano W (world s)).2 [] (CallerSkipFrameCount s))
  ∧ o = {| ro_CreatedAt := int64 nanos `quot` 1000000;
           ro_ResourceProvider := w_GetAddress W;
           ro_Index := index;
           ro_Spec := spec;
           ro_Modules := Offers_Modules options;
           ro_Mode := Offers_Mode options;
           ro_DefaultPricing := Offers_DefaultPricing options;
           ro_DefaultTimeouts := Offers_DefaultTimeouts options;
           ro_ModulePricing := ∅;
           ro_ModuleTimeouts := ∅;
           ro_TrustedParties := Offers_TrustedParties options |}
  ∧ (0 ≤ nanos < 2 ^ 63 → ro_CreatedAt o = nanos `div` 1000000)
  ∧ ∃ r σ d n,
      ensureResourceOffers W options s = Returns r (st_after s σ d n)
      ∧ Forall (λ o', ∃ nanos' spec',
                  Offers_Specs options !! Z.to_nat (ro_Index o') = Some spec'
                  ∧ 0 ≤ ro_Index o'
                  ∧ o' = offer_at W options nanos' (ro_Index o') spec')
          (add_calls d).
Proof.
  intros nanos o. split_and!.
  - apply getResourceOffer_run.
  - done.
  - intros Hn. simpl. rewrite int64_small by lia. apply Z.quot_div_nonneg; lia.
  - destruct (w_GetResourceOffers W (active_offers_query W) (world s))
      as [[active [e|]] σ1] eqn:Hq.
    { do 4 eexists. split; [apply (ensureResourceOffers_query_failed s e); by rewrite Hq|].
      constructor. }
    assert (∀ offers l,
      offer_position <$> offers ++ l = missing_positions options active →
      Forall (λ o, ∃ nanos, o = offer_at W options nanos (ro_Index o) (ro_Spec o))
        (offers ++ l) →
      Forall (λ o', ∃ nanos' spec',
                Offers_Specs options !! Z.to_nat (ro_Index o') = Some spec'
                ∧ 0 ≤ ro_Index o'
                ∧ o' = offer_at W options nanos' (ro_Index o') spec') offers) as Hshape.
    { intros offers l Hpos Hbuilt. apply Forall_app in Hbuilt as [Hbuilt _].
      apply Forall_forall. intros o' Ho'.
      destruct (proj1 (Forall_forall _ _) Hbuilt o' Ho') as [nanos' Hb].
      assert (offer_position o' ∈ positions 0 (Offers_Specs options)) as Hin.
      { eapply (list_elem_of_filter (λ p, p.1 ∉ covered active)).
        fold (missing_positions options active). rewrite <- Hpos.
        apply list_elem_of_fmap_2, elem_of_app. by left. }
      apply positions_lookup in Hin as [Hle Hl]. rewrite Z.sub_0_r in Hl.
      by exists nanos', (ro_Spec o'). }
    destruct (ensureResourceOffers_cases s _ _ Hq)
      as (offers & σ2 & _ & Hpos & Hbuilt
          & [[Hacc Hrun]|(acc & o' & rest & e & -> & Hacc & He & Hrun)]).
    + do 4 eexists. split; [exact Hrun|]. rewrite add_calls_cycle.
      apply (Hshape offers []); by rewrite (right_id_L [] (++)).
    + do 4 eexists. split; [exact Hrun|]. rewrite add_calls_cycle.
      apply (Hshape (acc ++ [o']) rest); by rewrite <- (assoc_L (++)).
Qed.

(** ** A cycle *)

Lemma Forall_cycle_action_add_lines offers :
  Forall cycle_action (add_lines offers : list Action).
Proof. induction offers as [|o l IH]; [constructor|]. by repeat constructor. Qed.

Lemma Forall_cycle_action_logs {A} (l : list A) level title data :
  Forall cycle_action ((λ x, log_event level title (data x)) <$> l : list Action).
Proof. induction l; by constructor. Qed.

(** A cycle always runs to its end, and does nothing but log and call the
    solver. *)
Lemma agreeToDeals_total s :
  ∃ r σ d n, agreeToDeals W s = Returns r (st_after s σ d n) ∧ Forall cycle_action d.
Proof.
  pose proof (agreeToDeals_run s) as Hrun. cbn zeta in Hrun.
  destruct (w_GetDeals W _ (world s)) as [[deals err] σ]. destruct Hrun as [n Hrun].
  do 4 eexists. split; [exact Hrun|]. constructor; [done|].
  destruct err; [constructor|apply Forall_cycle_action_logs].
Qed.

Lemma ensureResourceOffers_total s :
  ∃ r σ d n, ensureResourceOffers W options s = Returns r (st_after s σ d n)
             ∧ Forall cycle_action d.
Proof.
  destruct (w_GetResourceOffers W (active_offers_query W) (world s))
    as [[active [e|]] σ1] eqn:Hq.
  - do 4 eexists. split; [apply (ensureResourceOffers_query_failed s e); by rewrite Hq|].
    by repeat constructor.
  - destruct (ensureResourceOffers_cases s _ _ Hq)
      as (offers & σ2 & _ & _ & _ & [[_ Hrun]|(acc & o & rest & e & _ & _ & _ & Hrun)]);
      do 4 eexists; (split; [exact Hrun|]);
      (constructor; [done|apply Forall_cycle_action_add_lines]).
Qed.

(** [solve] logs, runs [agreeToDeals], and runs [ensureResourceOffers] only
    when [agreeToDeals] returned nil. *)
Lemma solve_unfold s :
  let s0 := st_after s (world s) [log_event DebugLevel "solving" (DataString "")] 3 in
  ∃ r1 s1,
    agreeToDeals W s0 = Returns r1 s1
    ∧ match r1 with
      | Some e => solve W options s = Returns (Some e) s1
      | None =>
          ∃ r2 s2, ensureResourceOffers W options s1 = Returns r2 s2
                   ∧ solve W options s = Returns r2 s2
      end.
Proof.
  intros s0. destruct (agreeToDeals_total s0) as (r1 & σ1 & d1 & n1 & Hr1 & _).
  exists r1, (st_after s0 σ1 d1 n1). split; [done|].
  unfold solve, Debug. erewrite bind_run by apply logWithCaller_run. fold s0.
  erewrite bind_run by exact Hr1.
  destruct r1 as [e|]; [done|].
  destruct (ensureResourceOffers_total (st_after s0 σ1 d1 n1)) as (r2 & σ2 & d2 & n2 & Hr2 & _).
  exists r2, (st_after (st_after s0 σ1 d1 n1) σ2 d2 n2). split; [done|].
  erewrite bind_run by exact Hr2. by destruct r2.
Qed.

Lemma solve_total s :
  ∃ r σ d n, solve W options s = Returns r (st_after s σ d n) ∧ Forall cycle_action d.
Proof.
  set (s0 := st_after s (world s) [log_event DebugLevel "solving" (DataString "")] 3).
  destruct (agreeToDeals_total s0) as (r1 & σ1 & d1 & n1 & Hr1 & Hd1).
  destruct (solve_unfold s) as (r1' & s1 & Hr1' & Hsolve). fold s0 in Hr1'.
  rewrite Hr1 in Hr1'. injection Hr1' as <- <-.
  destruct r1 as [e|].
  - do 4 eexists. split; [rewrite Hsolve; unfold s0; by rewrite st_after_after|].
    apply Forall_app. split; [by repeat constructor|done].
  - destruct Hsolve as (r2 & s2 & Hr2 & Hsolve).
    destruct (ensureResourceOffers_total (st_after s0 σ1 d1 n1))
      as (r2' & σ2 & d2 & n2 & Hr2' & Hd2).
    rewrite Hr2' in Hr2. injection Hr2 as <- <-.
    do 4 eexists. split; [rewrite Hsolve; unfold s0; by rewrite !st_after_after|].
    rewrite !Forall_app. split_and!; [by repeat constructor|done|done].
Qed.

(** ** The loop *)

Lemma sends_app d d' : sends (d ++ d') = sends d ++ sends d'.
Proof. apply omap_app. Qed.

Lemma selects_app d d' : selects (d ++ d') = selects d ++ selects d'.
Proof. apply omap_app. Qed.

Lemma sends_cycle d : Forall cycle_action d → sends d = [].
Proof. induction 1 as [|a d Ha _ IH]; [done|]. by destruct a. Qed.

Lemma selects_cycle d : Forall cycle_action d → selects d = [].
Proof. induction 1 as [|a d Ha _ IH]; [done|]. by destruct a. Qed.

(** A send is recorded and then returns or blocks; it changes nothing but
    the world and what was received from the channel. *)
Lemma chan_send_final c e s :
  stopped (chan_send W c e s)
  ∧ trace (final (chan_send W c e s)) = trace s ++ [ChanSend c e]
  ∧ goroutines (final (chan_send W c e s)) = goroutines s.
Proof.
  unfold chan_send. cbn [chans st_emit world].
  destruct (chans s !! c) as [[[] rcv]|]; cbn [ch_shared]; [|done..].
  by destruct (w_Receive W (world s)) as [[] σ].
Qed.

(** On a shared channel whose holder receives, the value is handed over. *)
Lemma chan_send_received c e s ch σ :
  chans s !! c = Some ch → ch_shared ch = true →
  w_Receive W (world s) = (true, σ) →
  chan_send W c e s
  = Returns tt
      {| world := σ; trace := trace s ++ [ChanSend c e];
         CallerSkipFrameCount := CallerSkipFrameCount s;
         chans := <[c := {| ch_shared := true; ch_received := ch_received ch ++ [e] |}]>
                    (chans s);
         goroutines := goroutines s |}.
Proof.
  intros Hc Hshared Hrcv. unfold chan_send. cbn [chans st_emit world].
  by rewrite Hc, Hshared, Hrcv.
Qed.

(** The end of a failed cycle. *)
Lemma forward_error_final c e s :
  let out := (Error ResourceProviderService "error solving" e;;
              chan_send W c e;; mret tt) s in
  stopped out
  ∧ trace (final out) = trace s ++ error_lines c e
  ∧ goroutines (final out) = goroutines s.
Proof.
  unfold Error. erewrite bind_run by apply logWithCaller_run.
  set (s' := st_after s (world s) [log_event ErrorLevel "error solving" (DataError e)] 3).
  destruct (chan_send_final c e s') as (Hstop & Htr & Hgo).
  unfold mbind, M_bind. cbn zeta.
  destruct (chan_send W c e s') as [[] s2|s2|s2|s2]; try done; simpl in *;
    by rewrite Htr, <- (assoc_L (++)).
Qed.

Lemma select_run s :
  select_timer_or_done W s
  = Returns (w_Select W (world s)).1
      (st_after s (w_Select W (world s)).2 [Select (w_Select W (world s)).1]
         (CallerSkipFrameCount s)).
Proof. unfold select_timer_or_done. by destruct (w_Select W (world s)). Qed.

(** One turn of the loop. *)
Lemma solve_loop_unfold fuel c s :
  solve_loop W options (S fuel) c s
  = match solve W options s with
    | Returns (Some e) s1 =>
        (Error ResourceProviderService "error solving" e;; chan_send W c e;; mret tt) s1
    | Returns None s1 =>
        match select_timer_or_done W s1 with
        | Returns TimerFired s2 => solve_loop W options fuel c s2
        | Returns (CtxDone _) s2 => Returns tt s2
        | Panics s2 => Panics s2
        | Blocks s2 => Blocks s2
        | Running s2 => Running s2
        end
    | Panics s1 => Panics s1
    | Blocks s1 => Blocks s1
    | Running s1 => Running s1
    end.
Proof.
  unfold solve_loop at 1. cbn [for_ever]. unfold mbind, M_bind.
  destruct (solve W options s) as [[e|] s1|s1|s1|s1]; try done.
  - unfold Error. rewrite !logWithCaller_run.
    by destruct (chan_send W c e _) as [[] s3|s3|s3|s3].
  - by destruct (select_timer_or_done W s1) as [[|b] s2|s2|s2|s2].
Qed.

(** Whatever the fuel, the loop runs as [loop_run] says. *)
Lemma solve_loop_run fuel c s : loop_run W options c s (solve_loop W options fuel c s).
Proof.
  revert s. induction fuel as [|fuel IH]; intros s; [constructor|].
  rewrite solve_loop_unfold.
  destruct (solve_total s) as (r & σ & d & n & Hsolve & _). rewrite Hsolve.
  destruct r as [e|]; [by constructor|].
  rewrite select_run. cbn [world st_after].
  destruct (w_Select W σ) as [[|b] σ'] eqn:Hsel; cbn [fst snd].
  - eapply loop_next_cycle; [done| |apply IH]. rewrite select_run. cbn [world st_after].
    by rewrite Hsel.
  - eapply loop_cancelled; [done|]. rewrite select_run. cbn [world st_after].
    by rewrite Hsel.
Qed.

(** The end state of a cycle, as [solve_total] gives it. *)
Lemma solve_returns s r s1 :
  solve W options s = Returns r s1 →
  ∃ σ d n, s1 = st_after s σ d n ∧ Forall cycle_action d.
Proof.
  intros Hsolve. destruct (solve_total s) as (r' & σ & d & n & Hrun & Hd).
  rewrite Hrun in Hsolve. injection Hsolve as <- <-. by exists σ, d, n.
Qed.

Lemma select_returns s w s2 :
  select_timer_or_done W s = Returns w s2 →
  ∃ σ, s2 = st_after s σ [Select w] (CallerSkipFrameCount s).
Proof. rewrite select_run. intros [= <- <-]. by eexists. Qed.

(** C2: in a cycle [agreeToDeals] runs first, and [ensureResourceOffers]
    runs only when it returned nil: its error, or else the outcome of
    [ensureResourceOffers], is the outcome of the cycle.  When a cycle
    returns an error the loop logs it, sends it on its channel and is over:
    nothing follows the send.  So in any run of the loop at most one error
    is sent, it is the error of the cycle that has just failed, and the send
    is the last thing the loop does.  When the caller is receiving, the
    error is what it receives, once, and the goroutine returns. *)
Theorem solve_loop_fails_fast c s :
  (∃ r1 s1,
     agreeToDeals W (st_after s (world s) [log_event DebugLevel "solving" (DataString "")] 3)
     = Returns r1 s1
     ∧ match r1 with
       | Some e => solve W options s = Returns (Some e) s1
       | None =>
           ∃ r2 s2, ensureResourceOffers W options s1 = Returns r2 s2
                    ∧ solve W options s = Returns r2 s2
       end)
  ∧ (∀ fuel e s1,
       solve W options s = Returns (Some e) s1 →
       stopped (solve_loop W options (S fuel) c s)
       ∧ trace (final (solve_loop W options (S fuel) c s)) = trace s1 ++ error_lines c e)
  ∧ (∀ fuel e s1 ch σ,
       solve W options s = Returns (Some e) s1 →
       chans s !! c = Some ch → ch_shared ch = true →
       w_Receive W (world s1) = (true, σ) →
       returned (solve_loop W options (S fuel) c s) = Some tt
       ∧ chans (final (solve_loop W options (S fuel) c s))
         = <[c := {| ch_shared := true; ch_received := ch_received ch ++ [e] |}]> (chans s))
  ∧ (∀ fuel,
       ∃ d, trace (final (solve_loop W options fuel c s)) = trace s ++ d
            ∧ (sends d = []
               ∨ ∃ e s0 s1,
                   solve W options s0 = Returns (Some e) s1
                   ∧ sends d = [(c, e)]
                   ∧ stopped (solve_loop W options fuel c s)
                   ∧ trace (final (solve_loop W options fuel c s))
                     = trace s1 ++ error_lines c e)).
Proof.
  split_and!.
  - apply solve_unfold.
  - intros fuel e s1 Hsolve. rewrite solve_loop_unfold, Hsolve.
    destruct (forward_error_final c e s1) as (Hstop & Htr & _). done.
  - intros fuel e s1 ch σ Hsolve Hc Hshared Hrcv. rewrite solve_loop_unfold, Hsolve.
    destruct (solve_returns _ _ _ Hsolve) as (σ1 & d & n & -> & _).
    unfold Error. erewrite bind_run by apply logWithCaller_run.
    erewrite bind_run by by eapply chan_send_received.
    done.
  - intros fuel. generalize (solve_loop_run fuel c s).
    generalize (solve_loop W options fuel c s). intros out Hrun.
    induction Hrun as [s|s e s1 Hsolve|s s1 b s2 Hsolve Hsel|s s1 s2 out Hsolve Hsel Hrun IH].
    + exists []. split; [by rewrite (right_id_L [] (++))|by left].
    + destruct (forward_error_final c e s1) as (Hstop & Htr & _). cbn zeta in *.
      destruct (solve_returns _ _ _ Hsolve) as (σ & d & n & Hs1 & Hd).
      exists (d ++ error_lines c e). split.
      * rewrite Htr, Hs1. cbn [trace st_after]. by rewrite (assoc_L (++)).
      * right. exists e, s, s1. split_and!; try done.
        by rewrite sends_app, (sends_cycle d).
    + destruct (solve_returns _ _ _ Hsolve) as (σ & d & n & -> & Hd).
      destruct (select_returns _ _ _ Hsel) as (σ' & ->).
      exists (d ++ [Select (CtxDone b)]). split.
      * cbn [final trace st_after]. by rewrite (assoc_L (++)).
      * left. by rewrite sends_app, (sends_cycle d).
    + destruct (solve_returns _ _ _ Hsolve) as (σ & d & n & -> & Hd).
      destruct (select_returns _ _ _ Hsel) as (σ' & ->).
      destruct IH as (d' & Htr & Hsends).
      exists ((d ++ [Select TimerFired]) ++ d'). split.
      * rewrite Htr. cbn [trace st_after]. by rewrite !(assoc_L (++)).
      * rewrite !sends_app, (sends_cycle d) by done. exact Hsends.
Qed.

(** Any run of the loop only extends the trace. *)
Lemma solve_loop_extends_run c s out :
  loop_run W options c s out → ∃ d, trace (final out) = trace s ++ d.
Proof.
  intros Hrun.
  induction Hrun as [s|s e s1 Hsolve|s s1 b s2 Hsolve Hsel|s s1 s2 out Hsolve Hsel Hrun IH].
  - exists []. by rewrite (right_id_L [] (++)).
  - destruct (forward_error_final c e s1) as (_ & Htr & _). cbn zeta in Htr.
    destruct (solve_returns _ _ _ Hsolve) as (σ & d & n & -> & _).
    eexists. rewrite Htr. cbn [trace st_after]. by rewrite <- (assoc_L (++)).
  - destruct (solve_returns _ _ _ Hsolve) as (σ & d & n & -> & _).
    destruct (select_returns _ _ _ Hsel) as (σ' & ->).
    eexists. cbn [final trace st_after]. by rewrite <- (assoc_L (++)).
  - destruct (solve_returns _ _ _ Hsolve) as (σ & d & n & -> & _).
    destruct (select_returns _ _ _ Hsel) as (σ' & ->).
    destruct IH as (d' & ->). eexists. cbn [trace st_after]. by rewrite <- !(assoc_L (++)).
Qed.

(** A list is cut at the first element of a kind in one way only. *)
Lemma split_at_first {A} (P : A → Prop) (l1 l2 k1 k2 : list A) x y :
  l1 ++ x :: l2 = k1 ++ y :: k2 →
  Forall (λ a, ¬ P a) k1 → P x →
  (l1 = k1 ∧ x = y ∧ l2 = k2) ∨ (∃ m, l1 = k1 ++ y :: m ∧ k2 = m ++ x :: l2).
Proof.
  revert l1. induction k1 as [|a k1 IH]; intros l1 Heq Hk1 Hx.
  - destruct l1 as [|a' l1]; simplify_eq/=; [by left|]. right. by eexists.
  - apply Forall_cons in Hk1 as [Ha Hk1].
    destruct l1 as [|a' l1]; simplify_eq/=; [done|].
    destruct (IH l1) as [(-> & -> & ->)|(m & -> & ->)]; try done; [by left|].
    right. by eexists.
Qed.

(** C6: when the select of the loop finds the context cancelled, before or
    during the sleep, the goroutine returns at once; in a run where that
    happens nothing was sent on the error channel and nothing was received
    from it.  The loop looks at the context nowhere but in that select, which
    it reaches only at the end of a cycle that ran to its end: every cycle
    runs to its end whatever the world does meanwhile. *)
Theorem solve_loop_cancelled_quietly c s :
  (∃ r s1, solve W options s = Returns r s1)
  ∧ (∀ fuel s1 mid_sleep σ,
       solve W options s = Returns None s1 →
       w_Select W (world s1) = (CtxDone mid_sleep, σ) →
       solve_loop W options (S fuel) c s
       = Returns tt (st_after s1 σ [Select (CtxDone mid_sleep)] (CallerSkipFrameCount s1)))
  ∧ (∀ fuel,
       ∃ d, trace (final (solve_loop W options fuel c s)) = trace s ++ d
            ∧ ∀ mid_sleep,
                CtxDone mid_sleep ∈ selects d →
                solve_loop W options fuel c s
                = Returns tt (final (solve_loop W options fuel c s))
                ∧ sends d = []
                ∧ chans (final (solve_loop W options fuel c s)) = chans s
                ∧ ∃ s0 s1,
                    solve W options s0 = Returns None s1
                    ∧ select_timer_or_done W s1
                      = Returns (CtxDone mid_sleep)
                          (final (solve_loop W options fuel c s))).
Proof.
  split_and!.
  - destruct (solve_total s) as (r & σ & d & n & Hsolve & _). by eauto.
  - intros fuel s1 b σ Hsolve Hsel. rewrite solve_loop_unfold, Hsolve, select_run, Hsel.
    done.
  - intros fuel. generalize (solve_loop_run fuel c s).
    generalize (solve_loop W options fuel c s). intros out Hrun.
    induction Hrun as [s|s e s1 Hsolve|s s1 b s2 Hsolve Hsel|s s1 s2 out Hsolve Hsel Hrun IH].
    + exists []. split; [by rewrite (right_id_L [] (++))|].
      intros b Hb. by apply elem_of_nil in Hb.
    + destruct (forward_error_final c e s1) as (_ & Htr & _). cbn zeta in Htr.
      destruct (solve_returns _ _ _ Hsolve) as (σ & d & n & Hs1 & Hd).
      exists (d ++ error_lines c e). split.
      * rewrite Htr, Hs1. cbn [trace st_after]. by rewrite (assoc_L (++)).
      * intros b Hb. rewrite selects_app, (selects_cycle d) in Hb by done.
        by apply elem_of_nil in Hb.
    + destruct (solve_returns _ _ _ Hsolve) as (σ & d & n & Hs1 & Hd).
      destruct (select_returns _ _ _ Hsel) as (σ' & Hs2).
      exists (d ++ [Select (CtxDone b)]). split.
      * rewrite Hs2, Hs1. cbn [final trace st_after]. by rewrite (assoc_L (++)).
      * intros b' Hb'. rewrite selects_app, (selects_cycle d) in Hb' by done.
        apply list_elem_of_singleton in Hb'. injection Hb' as ->.
        split_and!; [done| |by rewrite Hs2, Hs1|by exists s, s1].
        by rewrite sends_app, (sends_cycle d).
    + destruct (solve_returns _ _ _ Hsolve) as (σ & d & n & Hs1 & Hd).
      destruct (select_returns _ _ _ Hsel) as (σ' & Hs2).
      destruct IH as (d' & Htr & IH).
      exists ((d ++ [Select TimerFired]) ++ d'). split.
      * rewrite Htr, Hs2, Hs1. cbn [trace st_after]. by rewrite !(assoc_L (++)).
      * intros b Hb. rewrite !selects_app, (selects_cycle d) in Hb by done.
        apply elem_of_cons in Hb as [[=]|Hb].
        destruct (IH b Hb) as (Hout & Hsends & Hchans & Hobs).
        split_and!; [done| |by rewrite Hchans, Hs2, Hs1|done].
        by rewrite !sends_app, (sends_cycle d), Hsends.
Qed.

(** ** Setup *)

(** C8: the handler of solver events returns normally on every event.  It
    logs the event; on a deal-added event without a deal it logs the error
    [RP received nil deal] and does nothing more; on any other event, a
    deal-added event for another provider among them, it does nothing more
    at all.  It calls neither the solver nor the ledger, sends nothing on a
    channel and starts no goroutine. *)
Theorem solverEventHandler_only_logs ev s :
  solverEventHandler Deal_ResourceProvider W ev s
  = Returns tt
      (st_after s (world s)
         (ServiceLogSolverEvent ResourceProviderService ev ::
            match ev_EventType ev, ev_Deal ev with
            | DealAdded, None =>
                [log_event ErrorLevel "solver event" (DataError (Errorf "RP received nil deal"))]
            | _, _ => []
            end)
         (match ev_EventType ev, ev_Deal ev with
          | DealAdded, None => 3
          | _, _ => CallerSkipFrameCount s
          end))
  ∧ (∀ deal,
       ev_EventType ev = DealAdded → ev_Deal ev = Some deal →
       Deal_ResourceProvider deal ≠ w_GetAddress W →
       solverEventHandler Deal_ResourceProvider W ev s
       = Returns tt (st_after s (world s) [ServiceLogSolverEvent ResourceProviderService ev]
                       (CallerSkipFrameCount s))).
Proof.
  assert (∀ s', st_after s (world s) [ServiceLogSolverEvent ResourceProviderService ev]
                  (CallerSkipFrameCount s) = s' →
    emit (ServiceLogSolverEvent ResourceProviderService ev) s = Returns tt s') as Hemit.
  { intros s' <-. by destruct s. }
  assert (solverEventHandler Deal_ResourceProvider W ev s
    = Returns tt
      (st_after s (world s)
         (ServiceLogSolverEvent ResourceProviderService ev ::
            match ev_EventType ev, ev_Deal ev with
            | DealAdded, None =>
                [log_event ErrorLevel "solver event" (DataError (Errorf "RP received nil deal"))]
            | _, _ => []
            end)
         (match ev_EventType ev, ev_Deal ev with
          | DealAdded, None => 3
          | _, _ => CallerSkipFrameCount s
          end))) as Hrun.
  { unfold solverEventHandler. erewrite bind_run by by apply Hemit.
    case_bool_decide as Hty.
    - rewrite Hty. destruct (ev_Deal ev) as [deal|]; simpl.
      + unfold mbind, M_bind, deref. by case_bool_decide.
      + unfold Error. by rewrite logWithCaller_run, st_after_after.
    - by destruct (ev_EventType ev). }
  split; [exact Hrun|]. intros deal Hty Hdeal _. by rewrite Hrun, Hty, Hdeal.
Qed.

Lemma list_alter_last {A} (f : A → A) (l : list A) x :
  alter f (length l) (l ++ [x]) = l ++ [f x].
Proof. induction l as [|a l IH]; [done|]. simpl. f_equal. apply IH. Qed.

(** When both collaborators start, [Start] spawns the loop and hands its
    channel to the caller. *)
Lemma Start_succeeds s σ1 σ2 :
  w_SolverClientStart W (world s) = (None, σ1) →
  w_Web3EventsStart W σ1 = (None, σ2) →
  Start W s
  = Returns (length (chans s))
      {| world := σ2; trace := trace s ++ setup_actions;
         CallerSkipFrameCount := CallerSkipFrameCount s;
         chans := chans s ++ [{| ch_shared := true; ch_received := [] |}];
         goroutines := goroutines s ++ [SolveLoop (length (chans s))] |}.
Proof.
  intros H1 H2. unfold Start, mbind, M_bind. simpl.
  unfold call. simpl. rewrite H1. simpl. rewrite H2. simpl.
  unfold return_chan. simpl. f_equal. unfold st_chans, setup_actions. simpl.
  rewrite list_alter_last. by rewrite <- !(assoc_L (++)).
Qed.

(** When one fails, [Start] sends the error on the channel it has just made
    and blocks there. *)
Lemma Start_blocked s e σ (calls : list Action) :
  (w_SolverClientStart W (world s) = (Some e, σ) ∧ calls = [SolverClientStart])
  ∨ (∃ σ1, w_SolverClientStart W (world s) = (None, σ1)
           ∧ w_Web3EventsStart W σ1 = (Some e, σ)
           ∧ calls = [SolverClientStart; Web3EventsStart]) →
  Start W s
  = Blocks
      {| world := σ;
         trace := trace s ++ [SubscribeEvents SolverEventHandler;
                              SubscribeDealStateChange DealStateChangeHandler]
                    ++ calls ++ [ChanSend (length (chans s)) e];
         CallerSkipFrameCount := CallerSkipFrameCount s;
         chans := chans s ++ [{| ch_shared := false; ch_received := [] |}];
         goroutines := goroutines s |}.
Proof.
  intros [[H1 ->]|(σ1 & H1 & H2 & ->)]; unfold Start, mbind, M_bind; simpl;
    unfold call; simpl; rewrite H1; simpl; [|rewrite H2; simpl];
    unfold chan_send; simpl; rewrite lookup_app_r, Nat.sub_diag by done; simpl;
    unfold st_emit; simpl; by rewrite <- ?(assoc_L (++)).
Qed.

(** C4, as the code has it: when the solver client or the ledger events fail
    to start, [Start] does not return.  It sends the error on the channel it
    has just made, which nobody else holds, and blocks in that send for
    ever: the caller gets neither the channel nor the error.  No goroutine
    is spawned and no cycle runs.  The two subscriptions always return
    nil. *)
Theorem Start_blocks_when_setup_fails s e :
  (w_SolverClientStart W (world s)).1 = Some e
  ∨ ((w_SolverClientStart W (world s)).1 = None
     ∧ (w_Web3EventsStart W (w_SolverClientStart W (world s)).2).1 = Some e) →
  ∃ s',
    Start W s = Blocks s'
    ∧ (∀ fuel, controller W options fuel s = Blocks s')
    ∧ chans s' = chans s ++ [{| ch_shared := false; ch_received := [] |}]
    ∧ goroutines s' = goroutines s
    ∧ (∃ d, trace s' = trace s ++ d
            ∧ Forall (λ a, ¬ cycle_action a) d
            ∧ sends d = [(length (chans s), e)])
    ∧ returned (subscribeToSolver s) = Some None
    ∧ returned (subscribeToWeb3 s) = Some None.
Proof.
  intros Hfail.
  assert (∃ σ calls,
    ((w_SolverClientStart W (world s) = (Some e, σ) ∧ calls = [SolverClientStart])
     ∨ (∃ σ1, w_SolverClientStart W (world s) = (None, σ1)
              ∧ w_Web3EventsStart W σ1 = (Some e, σ)
              ∧ calls = [SolverClientStart; Web3EventsStart]))
    ∧ Forall (λ a : Action, ¬ cycle_action a) calls ∧ sends calls = []) as (σ & calls & Hcase & Hcalls & Hsends).
  { destruct (w_SolverClientStart W (world s)) as [r1 σ1] eqn:H1. simpl in Hfail.
    destruct Hfail as [->|[-> Hfail]].
    - exists σ1, [SolverClientStart]. split_and!; [by left| |done]. repeat constructor; tauto.
    - destruct (w_Web3EventsStart W σ1) as [r2 σ2] eqn:H2. simpl in Hfail. subst r2.
      exists σ2, [SolverClientStart; Web3EventsStart].
      split_and!; [right; by exists σ1| |done]. repeat constructor; tauto. }
  pose proof (Start_blocked s e σ calls Hcase) as Hrun.
  eexists. split; [exact Hrun|]. split_and!.
  - intros fuel. unfold controller. unfold mbind at 1, M_bind at 1. by rewrite Hrun.
  - done.
  - done.
  - eexists. split; [done|]. split.
    + repeat (apply Forall_cons; split; [tauto|]).
      apply Forall_app. split; [done|]. repeat constructor; tauto.
    + unfold sends in *. simpl. by rewrite omap_app, Hsends.
  - done.
  - done.
Qed.

Lemma final_then_ret {A B} (m : M A) (b : B) s : final ((m;; mret b) s) = final (m s).
Proof. unfold mbind, M_bind. by destruct (m s). Qed.

Lemma controller_final s c s_up fuel :
  Start W s = Returns c s_up →
  goroutines s_up = [SolveLoop c] →
  final (controller W options fuel s)
  = final (solve_loop W options fuel c (st_goroutines [] s_up)).
Proof.
  intros Hstart Hgo. unfold controller. erewrite bind_run by exact Hstart.
  rewrite final_then_ret. unfold run_goroutines. rewrite Hgo. cbn [for_range run_goroutine].
  apply final_then_ret.
Qed.

(** Cutting a list after a prefix that has no element of the kind. *)
Lemma split_after {A} (P : A → Prop) (l1 l2 k d : list A) x :
  l1 ++ x :: l2 = k ++ d →
  Forall (λ a, ¬ P a) k → P x →
  ∃ m, l1 = k ++ m ∧ d = m ++ x :: l2.
Proof.
  revert l1. induction k as [|a k IH]; intros l1 Heq Hk Hx; [by exists l1|].
  apply Forall_cons in Hk as [Ha Hk].
  destruct l1 as [|a' l1]; simplify_eq/=; [done|].
  destruct (IH l1) as (m & -> & ->); try done. by exists m.
Qed.

Lemma cycle_not_select d : Forall cycle_action d → Forall (λ a, ¬ is_select a) d.
Proof. intros Hd. eapply Forall_impl; [exact Hd|]. intros a Ha [w ->]. done. Qed.

(** In a run of the loop every select comes at the end of a cycle that ran
    to its end and returned nil. *)
Lemma solve_loop_selects fuel c s pre w post :
  trace (final (solve_loop W options fuel c s)) = trace s ++ pre ++ Select w :: post →
  ∃ s0 s1, solve W options s0 = Returns None s1 ∧ trace s1 = trace s ++ pre.
Proof.
  generalize (solve_loop_run fuel c s). generalize (solve_loop W options fuel c s).
  intros out Hrun. revert pre.
  induction Hrun as [s|s e s1 Hsolve|s s1 b s2 Hsolve Hsel|s s1 s2 out Hsolve Hsel Hrun IH];
    intros pre Htr.
  - simpl in Htr. rewrite <- (right_id_L [] (++) (trace s)) in Htr at 1.
    apply app_inv_head in Htr. by destruct pre.
  - destruct (forward_error_final c e s1) as (_ & Htr' & _). cbn zeta in Htr'.
    destruct (solve_returns _ _ _ Hsolve) as (σ & d & n & Hs1 & Hd).
    rewrite Htr', Hs1 in Htr. cbn [trace st_after] in Htr.
    rewrite <- (assoc_L (++)) in Htr. apply app_inv_head in Htr. symmetry in Htr.
    destruct (split_after is_select _ _ _ _ _ Htr (cycle_not_select _ Hd)) as (m & _ & Hm);
      [by eexists|].
    destruct m as [|? [|? m]]; simplify_eq/=. by destruct m.
  - destruct (solve_returns _ _ _ Hsolve) as (σ & d & n & Hs1 & Hd).
    destruct (select_returns _ _ _ Hsel) as (σ' & Hs2).
    rewrite Hs2, Hs1 in Htr. cbn [final trace st_after] in Htr.
    rewrite <- (assoc_L (++)) in Htr. apply app_inv_head in Htr. symmetry in Htr.
    destruct (split_at_first is_select _ _ _ _ _ _ Htr (cycle_not_select _ Hd))
      as [(-> & _ & _)|(m & _ & Hm)]; [by eexists| |by destruct m].
    exists s, s1. split; [done|]. by rewrite Hs1.
  - destruct (solve_returns _ _ _ Hsolve) as (σ & d & n & Hs1 & Hd).
    destruct (select_returns _ _ _ Hsel) as (σ' & Hs2).
    destruct (solve_loop_extends_run c s2 out Hrun) as [d' Hd'].
    rewrite Hd', Hs2, Hs1 in Htr. cbn [trace st_after] in Htr.
    rewrite <- !(assoc_L (++)) in Htr. apply app_inv_head in Htr. symmetry in Htr.
    destruct (split_at_first is_select _ _ _ _ _ _ Htr (cycle_not_select _ Hd))
      as [(-> & _ & _)|(m & -> & Hm)]; [by eexists| |].
    + exists s, s1. split; [done|]. by rewrite Hs1.
    + destruct (IH m) as (s0 & s1' & Hsolve' & Htr').
      { rewrite Hd', Hm. done. }
      exists s0, s1'. split; [done|]. rewrite Htr', Hs2, Hs1. cbn [trace st_after].
      by rewrite <- !(assoc_L (++)).
Qed.

Lemma selects_setup_actions : selects (setup_actions : list Action) = [].
Proof. done. Qed.

(** C10: when the setup succeeds, [Start] returns the channel without having
    slept, and the goroutine it spawned begins with a whole cycle: the trace
    of the run goes from the setup through the first cycle without any
    select.  Later on, too, the loop sleeps only at the end of a cycle that
    ran to its end and returned nil. *)
Theorem first_cycle_runs_before_any_sleep s σ1 σ2 :
  w_SolverClientStart W (world s) = (None, σ1) →
  w_Web3EventsStart W σ1 = (None, σ2) →
  goroutines s = [] →
  ∃ c s_up r s1,
    Start W s = Returns c s_up
    ∧ goroutines s_up = [SolveLoop c]
    ∧ trace s_up = trace s ++ setup_actions
    ∧ solve W options (st_goroutines [] s_up) = Returns r s1
    ∧ selects (drop (length (trace s)) (trace s1)) = []
    ∧ (∀ fuel, ∃ rest, trace (final (controller W options (S fuel) s)) = trace s1 ++ rest)
    ∧ (∀ fuel pre w post,
         trace (final (controller W options fuel s)) = trace s ++ pre ++ Select w :: post →
         ∃ s0 s1', solve W options s0 = Returns None s1' ∧ trace s1' = trace s ++ pre).
Proof.
  intros H1 H2 Hgo. pose proof (Start_succeeds s σ1 σ2 H1 H2) as Hstart.
  rewrite Hgo in Hstart. cbn [app] in Hstart.
  set (c := length (chans s)) in *.
  set (s_up := {| world := σ2; trace := trace s ++ setup_actions;
                  CallerSkipFrameCount := CallerSkipFrameCount s;
                  chans := chans s ++ [{| ch_shared := true; ch_received := [] |}];
                  goroutines := [SolveLoop c] |}) in *.
  destruct (solve_total (st_goroutines [] s_up)) as (r & σ & d & n & Hsolve & Hd).
  exists c, s_up, r, (st_after (st_goroutines [] s_up) σ d n).
  split_and!; try done.
  - cbn [trace st_after st_goroutines s_up]. rewrite <- (assoc_L (++)), drop_app_length.
    by rewrite selects_app, selects_setup_actions, (selects_cycle d).
  - intros fuel. rewrite (controller_final s c s_up) by done.
    rewrite solve_loop_unfold, Hsolve.
    destruct r as [e|].
    + destruct (forward_error_final c e (st_after (st_goroutines [] s_up) σ d n))
        as (_ & Htr & _). by eexists.
    + rewrite select_run.
      destruct (w_Select W (world (st_after (st_goroutines [] s_up) σ d n))) as [[|b] σ'];
        cbn [fst snd].
      * destruct (solve_loop_extends_run c _ _ (solve_loop_run fuel c
          (st_after (st_after (st_goroutines [] s_up) σ d n) σ' [Select TimerFired]
             (CallerSkipFrameCount (st_after (st_goroutines [] s_up) σ d n)))))
          as [d' Hd'].
        rewrite Hd'. cbn [trace st_after]. rewrite <- (assoc_L (++)). by eexists.
      * by eexists.
  - intros fuel pre w post Htr. rewrite (controller_final s c s_up) in Htr by done.
    destruct (solve_loop_extends_run c _ _ (solve_loop_run fuel c (st_goroutines [] s_up)))
      as [d' Hd'].
    pose proof Htr as Hcut. rewrite Hd' in Hcut. cbn [trace st_goroutines s_up] in Hcut.
    rewrite <- (assoc_L (++)) in Hcut. apply app_inv_head in Hcut. symmetry in Hcut.
    destruct (split_after is_select _ _ _ _ _ Hcut) as (m & -> & Hm); [|by eexists|].
    { repeat constructor; intros [? [=]]. }
    destruct (solve_loop_selects fuel c (st_goroutines [] s_up) m w post)
      as (s0 & s1' & Hsolve' & Htr').
    { rewrite Hd', Hm. done. }
    exists s0, s1'. split; [done|]. rewrite Htr'. cbn [trace st_goroutines s_up].
    by rewrite <- (assoc_L (++)).
Qed.

End Properties.

(** * Examples and instances *)

(** Scenario A of the spec: a catalogue of two and no active offer give two
    add-offer calls, for the indices 0 and 1. *)
Example scenario_two_missing :
  let out := ensureResourceOffers Ex.world_fresh Ex.options Ex.started in
  returned out = Some None
  ∧ add_calls (trace (final out)) = [Ex.offer 0 "specA"; Ex.offer 1 "specB"].
Proof. by vm_compute. Qed.

(** Scenario B: with the offer of index 0 active, one call, for index 1. *)
Example scenario_one_missing :
  let out := ensureResourceOffers Ex.world_ok Ex.options Ex.started in
  returned out = Some None
  ∧ add_calls (trace (final out)) = [Ex.offer 1 "specB"].
Proof. by vm_compute. Qed.

(** Scenario D: the query fails, the error comes back and nothing is added. *)
Example scenario_query_fails :
  let out := ensureResourceOffers Ex.world_query_fails Ex.options Ex.started in
  returned out = Some (Some (Errorf "solver down"))
  ∧ add_calls (trace (final out)) = [].
Proof. by vm_compute. Qed.

(** The whole controller on the world where all goes well: two cycles, a
    sleep between them, and the context found cancelled after the second. *)
Example controller_two_cycles :
  let out := controller Ex.world_ok Ex.options 5 Ex.init in
  returned out = Some 0%nat
  ∧ selects (trace (final out)) = [TimerFired; CtxDone true]
  ∧ length (add_calls (trace (final out))) = 2%nat
  ∧ sends (trace (final out)) = [].
Proof. by vm_compute. Qed.

(** The 64-bit wrap-around of [int64]. *)
Example int64_wraps : int64 (2 ^ 63) = - 2 ^ 63 ∧ int64 (2 ^ 63 - 1) = 2 ^ 63 - 1.
Proof. by vm_compute. Qed.

(** C1 at a concrete input: the solver returns one negotiating deal of this
    provider; [agreeToDeals] makes the query, logs the deal and returns nil,
    and no on-ledger agreement is issued for the deal. *)
Lemma agreeToDeals_issues_no_agreement :
  let out := agreeToDeals Ex.world_ok Ex.started in
  (w_GetDeals Ex.world_ok (negotiating_deals_query Ex.world_ok) (world Ex.started)).1
  = ([("deal1", "0xRP")], None)
  ∧ returned out = Some None
  ∧ drop 4 (trace (final out))
    = [GetDeals (negotiating_deals_query Ex.world_ok);
       log_event InfoLevel "agree to deal" (DataDeal ("deal1", "0xRP"))]
  ∧ agree_calls (trace (final out)) = []
  ∧ agree_calls (trace (final out)) ≠ [("deal1", "0xRP")].
Proof.
  pose proof (agreeToDeals_queries_and_logs (StorageDealStateChange := unit)
                Ex.world_ok Ex.started) as [[n Hrun] Hagree].
  cbn zeta. rewrite Hrun. by vm_compute.
Defined.

Lemma solve_loop_fails_fast_witness :
  let out := solve_loop Ex.world_query_fails Ex.options 1 0 Ex.started in
  returned out = Some tt
  ∧ sends (trace (final out)) = [(0%nat, Errorf "solver down")]
  ∧ chans (final out)
    = [{| ch_shared := true; ch_received := [Errorf "solver down"] |}].
Proof.
  destruct (solve_loop_fails_fast Ex.world_query_fails Ex.options 0 Ex.started)
    as (_ & Hfail & Hreceived & _).
  destruct (Hfail 0%nat (Errorf "solver down") _ eq_refl) as [_ Htr].
  destruct (Hreceived 0%nat (Errorf "solver down") _
              {| ch_shared := true; ch_received := [] |} 4%nat eq_refl eq_refl eq_refl eq_refl)
    as [Hret Hchans].
  cbn zeta. split; [exact Hret|]. split; [by rewrite Htr|exact Hchans].
Defined.

Lemma ensureResourceOffers_adds_each_missing_index_once_witness :
  ∃ r σ d n,
    ensureResourceOffers Ex.world_ok Ex.options Ex.started
    = Returns r (st_after Ex.started σ d n)
    ∧ r = None
    ∧ ro_Index <$> add_calls d = [1].
Proof.
  destruct (ensureResourceOffers_adds_each_missing_index_once
              Ex.world_ok Ex.options Ex.started _ _ eq_refl)
    as (r & σ & d & n & Hrun & _ & _ & Hall & _ & Haccepts).
  assert (r = None) as Hr by (apply Haccepts; reflexivity).
  exists r, σ, d, n. split; [exact Hrun|]. split; [exact Hr|].
  rewrite (Hall Hr). reflexivity.
Defined.

Lemma Start_blocks_when_setup_fails_witness :
  ∃ s', Start Ex.world_setup_fails Ex.init = Blocks s'
        ∧ controller Ex.world_setup_fails Ex.options 3 Ex.init = Blocks s'
        ∧ chans s' = [{| ch_shared := false; ch_received := [] |}]
        ∧ goroutines s' = [].
Proof.
  destruct (Start_blocks_when_setup_fails Ex.world_setup_fails Ex.options Ex.init
              (Errorf "connection refused") (or_introl eq_refl))
    as (s' & Hrun & Hcontroller & Hchans & Hgo & _).
  exists s'. split; [exact Hrun|]. split; [apply Hcontroller|]. split; [exact Hchans|exact Hgo].
Defined.

Lemma getResourceOffer_builds_the_offer_witness :
  ro_CreatedAt (offer_at Ex.world_ok Ex.options 1700000000123456789 1 "specB")
  = 1700000000123.
Proof.
  destruct (getResourceOffer_builds_the_offer (StorageDealStateChange := unit)
              Ex.world_ok Ex.options 1 "specB" Ex.started)
    as (_ & _ & Hms & _).
  cbn zeta in Hms. simpl w_UnixNano in Hms. simpl fst in Hms.
  rewrite Hms; [reflexivity|lia].
Defined.

Lemma solve_loop_cancelled_quietly_witness :
  let out := solve_loop Ex.world_ok Ex.options 5 0 Ex.started in
  out = Returns tt (final out)
  ∧ selects (trace (final out)) = [TimerFired; CtxDone true]
  ∧ sends (trace (final out)) = []
  ∧ chans (final out) = chans Ex.started.
Proof.
  destruct (solve_loop_cancelled_quietly Ex.world_ok Ex.options 0 Ex.started)
    as (_ & _ & Hrun).
  destruct (Hrun 5%nat) as (d & Htr & Hcancel).
  assert (d = drop 4 (trace (final (solve_loop Ex.world_ok Ex.options 5 0 Ex.started))))
    as Hd by (rewrite Htr; reflexivity).
  destruct (Hcancel true) as (Hout & Hsends & Hchans & _).
  { rewrite Hd. vm_compute. apply list_elem_of_further, list_elem_of_here. }
  cbn zeta. split; [exact Hout|]. split; [by vm_compute|]. split; [by vm_compute|exact Hchans].
Defined.

Lemma ensureResourceOffers_fails_fast_witness :
  (let out := ensureResourceOffers Ex.world_query_fails Ex.options3 Ex.started in
   returned out = Some (Some (Errorf "solver down")) ∧ add_calls (trace (final out)) = [])
  ∧ (let out := ensureResourceOffers Ex.world_add_fails Ex.options3 Ex.started in
     returned out = Some (Some (Errorf "solver refused"))
     ∧ add_calls (trace (final out)) = [Ex.offer 0 "specA"; Ex.offer 1 "specB"]).
Proof.
  split.
  - destruct (ensureResourceOffers_fails_fast Ex.world_query_fails Ex.options3 Ex.started
                [] (Some (Errorf "solver down")) 3%nat eq_refl) as [Hrun Hcalls].
    cbn zeta. rewrite Hrun. split; [reflexivity|by vm_compute].
  - pose proof (ensureResourceOffers_fails_fast Ex.world_add_fails Ex.options3 Ex.started
                  [] None 3%nat eq_refl) as Hfail.
    cbn zeta iota in Hfail.
    destruct (Hfail [Ex.offer 0 "specA"; Ex.offer 1 "specB"; Ex.offer 2 "specC"]
                (st_after Ex.started 3%nat
                   [GetResourceOffers (active_offers_query Ex.world_add_fails)] 3)
                [Ex.offer 0 "specA"] (Ex.offer 1 "specB") [Ex.offer 2 "specC"]
                (Errorf "solver refused")) as [Hrun Hcalls].
    + by vm_compute.
    + reflexivity.
    + by vm_compute.
    + by vm_compute.
    + cbn zeta. rewrite Hrun. split; [reflexivity|by vm_compute].
Defined.

Lemma solverEventHandler_only_logs_witness :
  solverEventHandler Ex.Deal_ResourceProvider Ex.world_ok Ex.deal_for_another Ex.started
  = Returns tt
      (st_after Ex.started 2%nat
         [ServiceLogSolverEvent ResourceProviderService Ex.deal_for_another] 3)
  ∧ returned (solverEventHandler Ex.Deal_ResourceProvider Ex.world_ok Ex.deal_missing
                Ex.started) = Some tt.
Proof.
  split.
  - apply (proj2 (solverEventHandler_only_logs Ex.Deal_ResourceProvider Ex.world_ok
                    Ex.deal_for_another Ex.started) ("deal2", "0xOther"));
      [reflexivity|reflexivity|discriminate].
  - by rewrite (proj1 (solverEventHandler_only_logs Ex.Deal_ResourceProvider Ex.world_ok
                         Ex.deal_missing Ex.started)).
Defined.

Lemma first_cycle_runs_before_any_sleep_witness :
  ∃ c s_up r s1 rest,
    Start Ex.world_ok Ex.init = Returns c s_up
    ∧ solve Ex.world_ok Ex.options (st_goroutines [] s_up) = Returns r s1
    ∧ selects (trace s1) = []
    ∧ trace (final (controller Ex.world_ok Ex.options 3 Ex.init)) = trace s1 ++ rest.
Proof.
  destruct (first_cycle_runs_before_any_sleep Ex.world_ok Ex.options Ex.init 1%nat 2%nat
              eq_refl eq_refl eq_refl)
    as (c & s_up & r & s1 & Hstart & _ & _ & Hsolve & Hsel & Hrest & _).
  destruct (Hrest 2%nat) as [rest Hrest'].
  exists c, s_up, r, s1, rest. split; [exact Hstart|]. split; [exact Hsolve|].
  split; [exact Hsel|exact Hrest'].
Defined.

(** * More properties of the controller *)

Section RunProperties.
Context {MachineSpec OfferMode DealPricing DealTimeouts TrustedPartiesT : Type}.
Context {Deal StorageDealStateChange : Type}.
Context {Σ : Type}.

Abbreviation World :=
  (@World MachineSpec OfferMode DealPricing DealTimeouts TrustedPartiesT Deal Σ).
Abbreviation St :=
  (@St MachineSpec OfferMode DealPricing DealTimeouts TrustedPartiesT Deal
     StorageDealStateChange Σ).
Abbreviation Action :=
  (@Action MachineSpec OfferMode DealPricing DealTimeouts TrustedPartiesT Deal
     StorageDealStateChange).
Abbreviation ResourceOffer :=
  (@ResourceOffer MachineSpec OfferMode DealPricing DealTimeouts TrustedPartiesT).
Abbreviation ResourceOfferContainer :=
  (@ResourceOfferContainer MachineSpec OfferMode DealPricing DealTimeouts TrustedPartiesT).
Abbreviation M :=
  (@M MachineSpec OfferMode DealPricing DealTimeouts TrustedPartiesT Deal
     StorageDealStateChange Σ).

Context (W : World).
Context (options : @ResourceProviderOfferOptions MachineSpec OfferMode DealPricing
                     DealTimeouts TrustedPartiesT).

Implicit Types (s : St) (σ : Σ) (d : list Action) (e : error).
Implicit Types (o : ResourceOffer) (offers : list ResourceOffer).

(** ** The discipline of the loop *)

Lemma discipline_add_lines offers :
  Forall (λ o, ∃ nanos, o = offer_at W options nanos (ro_Index o) (ro_Spec o)) offers →
  Forall (loop_discipline W) (add_lines offers : list Action).
Proof.
  induction 1 as [|o l [nanos Ho] _ IH]; [constructor|].
  simpl. constructor; [|constructor; [|exact IH]].
  - by repeat split; try tauto.
  - rewrite Ho. by repeat split; try tauto.
Qed.

Lemma discipline_logs {A} (l : list A) level title data :
  Forall (loop_discipline W) ((λ x, log_event level title (data x)) <$> l : list Action).
Proof. induction l; constructor; [|done]. by repeat split; try tauto. Qed.

Lemma agreeToDeals_discipline s :
  ∃ r σ d n, agreeToDeals W s = Returns r (st_after s σ d n)
             ∧ Forall (loop_discipline W) d.
Proof.
  pose proof (agreeToDeals_run W s) as Hrun. cbn zeta in Hrun.
  destruct (w_GetDeals W _ (world s)) as [[deals err] σ]. destruct Hrun as [n Hrun].
  do 4 eexists. split; [exact Hrun|]. constructor; [by repeat split; try tauto|].
  destruct err; [constructor|apply discipline_logs].
Qed.

Lemma ensureResourceOffers_discipline s :
  ∃ r σ d n, ensureResourceOffers W options s = Returns r (st_after s σ d n)
             ∧ Forall (loop_discipline W) d.
Proof.
  destruct (w_GetResourceOffers W (active_offers_query W) (world s))
    as [[active [e|]] σ1] eqn:Hq.
  - do 4 eexists. split; [apply (ensureResourceOffers_query_failed W options s e); by rewrite Hq|].
    constructor; [by repeat split; try tauto|constructor].
  - destruct (ensureResourceOffers_cases W options s _ _ Hq)
      as (offers & σ2 & _ & _ & Hbuilt
          & [[_ Hrun]|(acc & o & rest & e & -> & _ & _ & Hrun)]);
      do 4 eexists; (split; [exact Hrun|]);
      (constructor; [by repeat split; try tauto|]); apply discipline_add_lines.
    + done.
    + rewrite (cons_middle o), (assoc_L (++)) in Hbuilt.
      by apply Forall_app in Hbuilt as [? _].
Qed.

(** The logger's global, once at 3, stays there. *)
Lemma agreeToDeals_keeps_skip s :
  CallerSkipFrameCount s = 3 → CallerSkipFrameCount (final (agreeToDeals W s)) = 3.
Proof.
  intros Hs. unfold agreeToDeals. erewrite bind_run by apply call_run.
  destruct (w_GetDeals W _ (world s)) as [[deals [e|]] σ]; [done|]. simpl.
  case_bool_decide; [done|]. erewrite bind_run by apply for_range_Info.
  simpl. by destruct deals.
Qed.

Lemma ensureResourceOffers_keeps_skip s :
  CallerSkipFrameCount s = 3 →
  CallerSkipFrameCount (final (ensureResourceOffers W options s)) = 3.
Proof.
  intros Hs.
  destruct (w_GetResourceOffers W (active_offers_query W) (world s))
    as [[active [e|]] σ1] eqn:Hq.
  - rewrite (ensureResourceOffers_query_failed W options s e) by by rewrite Hq. done.
  - destruct (ensureResourceOffers_cases W options s _ _ Hq)
      as (offers & σ2 & _ & _ & _ & [[_ ->]|(acc & o & rest & e & _ & _ & _ & ->)]);
      [|done].
    simpl. by destruct offers.
Qed.

(** A cycle, with the state it ends in: the logger's global is at 3 then,
    whatever it was before. *)
Lemma solve_discipline s :
  ∃ r σ d, solve W options s = Returns r (st_after s σ d 3)
           ∧ Forall (loop_discipline W) d.
Proof.
  set (s0 := st_after s (world s) [log_event DebugLevel "solving" (DataString "")] 3).
  destruct (solve_unfold W options s) as (r1 & s1 & Hr1 & Hsolve). fold s0 in Hr1.
  destruct (agreeToDeals_discipline s0) as (r1' & σ1 & d1 & n1 & Hr1' & Hd1).
  pose proof (agreeToDeals_keeps_skip s0 eq_refl) as Hn1.
  rewrite Hr1' in Hr1, Hn1. injection Hr1 as -> <-. simpl in Hn1. subst n1.
  assert (loop_discipline W (log_event DebugLevel "solving" (DataString "") : Action))
    as Hdebug by (by repeat split; try tauto).
  destruct r1 as [e|].
  - exists (Some e), σ1, ([log_event DebugLevel "solving" (DataString "")] ++ d1).
    split; [rewrite Hsolve; unfold s0; by rewrite st_after_after|].
    by constructor.
  - destruct Hsolve as (r2 & s2 & Hr2 & Hsolve).
    destruct (ensureResourceOffers_discipline (st_after s0 σ1 d1 3))
      as (r2' & σ2 & d2 & n2 & Hr2' & Hd2).
    pose proof (ensureResourceOffers_keeps_skip (st_after s0 σ1 d1 3) eq_refl) as Hn2.
    rewrite Hr2' in Hr2, Hn2. injection Hr2 as -> <-. simpl in Hn2. subst n2.
    exists r2, σ2, (([log_event DebugLevel "solving" (DataString "")] ++ d1) ++ d2).
    split; [rewrite Hsolve; unfold s0; by rewrite !st_after_after|].
    apply Forall_app. split; [by constructor|done].
Qed.

Lemma chan_send_skip c e s :
  CallerSkipFrameCount (final (chan_send W c e s)) = CallerSkipFrameCount s.
Proof.
  unfold chan_send. cbn [chans st_emit world].
  destruct (chans s !! c) as [[[] rcv]|]; cbn [ch_shared]; [|done..].
  by destruct (w_Receive W (world s)) as [[] σ].
Qed.

(** Every run of the loop, with the state it is left in. *)
Lemma solve_loop_discipline fuel c s :
  ∃ d, trace (final (solve_loop W options fuel c s)) = trace s ++ d
       ∧ Forall (loop_discipline W) d
       ∧ (fuel ≠ 0%nat →
          CallerSkipFrameCount (final (solve_loop W options fuel c s)) = 3).
Proof.
  revert s. induction fuel as [|fuel IH]; intros s.
  - exists []. split; [by rewrite (right_id_L [] (++))|]. split; [constructor|done].
  - rewrite solve_loop_unfold.
    destruct (solve_discipline s) as (r & σ & d & Hsolve & Hd). rewrite Hsolve.
    set (s1 := st_after s σ d 3).
    destruct r as [e|].
    + destruct (forward_error_final W c e s1) as (_ & Htr & _). cbn zeta in Htr.
      exists (d ++ error_lines c e). split; [|split].
      * rewrite Htr. unfold s1. cbn [trace st_after]. by rewrite (assoc_L (++)).
      * apply Forall_app. split; [done|]. by repeat constructor; try tauto.
      * intros _. unfold Error. erewrite bind_run by apply logWithCaller_run.
        by rewrite final_then_ret, chan_send_skip.
    + subst s1. rewrite select_run. cbn [world st_after].
      destruct (w_Select W σ) as [[|b] σ'] eqn:Hsel; cbn [fst snd].
      * destruct (IH (st_after (st_after s σ d 3) σ' [Select TimerFired]
                        (CallerSkipFrameCount (st_after s σ d 3))))
          as (d' & Htr & Hd' & Hskip).
        exists ((d ++ [Select TimerFired]) ++ d'). split; [|split].
        -- rewrite Htr. cbn [trace st_after]. by rewrite !(assoc_L (++)).
        -- rewrite !Forall_app. split_and!; [done| |done]. by repeat constructor; try tauto.
        -- intros _. destruct fuel; [done|]. by apply Hskip.
      * exists (d ++ [Select (CtxDone b)]). split; [|split].
        -- cbn [final trace st_after]. by rewrite (assoc_L (++)).
        -- apply Forall_app. split; [done|]. by repeat constructor; try tauto.
        -- done.
Qed.

(** X1: whatever the world answers and however long the loop runs, every
    call it makes stays with this provider.  Each deals query asks for the
    negotiating deals of the provider's own address, each offers query for
    its own active offers, each offer submitted names it as resource
    provider; and the loop makes none of the setup calls again, hands no
    event to the solver's service log and sends no agreement to the
    ledger. *)
Theorem solve_loop_stays_with_own_provider fuel c s :
  ∃ d, trace (final (solve_loop W options fuel c s)) = trace s ++ d
       ∧ Forall (scoped_call W) d
       ∧ Forall (λ a, ¬ setup_or_ledger_call a) d.
Proof.
  destruct (solve_loop_discipline fuel c s) as (d & Htr & Hd & _).
  exists d. split; [done|].
  split; (eapply Forall_impl; [exact Hd|]); intros a (? & ? & ?); done.
Qed.


(** X3: the goroutine of [Start] never panics and ends in two ways only.
    Either a cycle fails: then the error is sent on the channel, once, as
    the last thing the goroutine does, and it returns or blocks in that
    send.  Or the select finds the context done: then nothing is ever sent
    and the select is the last thing it does.  Before that the timer fired
    after each of the [k] cycles that succeeded, and [k] is less than the
    number of cycles the model follows; a run followed for [fuel] cycles
    without an end has slept [fuel] times and sent nothing. *)
Theorem solve_loop_ends_two_ways fuel c s :
  ∃ d, trace (final (solve_loop W options fuel c s)) = trace s ++ d
       ∧ match solve_loop W options fuel c s with
         | Running _ => selects d = replicate fuel TimerFired ∧ sends d = []
         | Returns _ _ =>
             ∃ k, (k < fuel)%nat
                  ∧ ((∃ mid_sleep,
                        selects d = replicate k TimerFired ++ [CtxDone mid_sleep]
                        ∧ sends d = []
                        ∧ last d = Some (Select (CtxDone mid_sleep)))
                     ∨ (∃ e, selects d = replicate k TimerFired
                             ∧ sends d = [(c, e)]
                             ∧ last d = Some (ChanSend c e)))
         | Blocks _ =>
             ∃ k e, (k < fuel)%nat
                    ∧ selects d = replicate k TimerFired
                    ∧ sends d = [(c, e)]
                    ∧ last d = Some (ChanSend c e)
         | Panics _ => False
         end.
Proof.
  revert s. induction fuel as [|fuel IH]; intros s.
  - exists []. split; [by rewrite (right_id_L [] (++))|done].
  - rewrite solve_loop_unfold.
    destruct (solve_total W options s) as (r & σ & d & n & Hsolve & Hd). rewrite Hsolve.
    destruct r as [e|].
    + destruct (forward_error_final W c e (st_after s σ d n)) as (Hstop & Htr & _).
      cbn zeta in Hstop, Htr.
      exists (d ++ error_lines c e). split.
      { rewrite Htr. cbn [trace st_after]. by rewrite (assoc_L (++)). }
      assert (selects (d ++ error_lines c e) = replicate 0 TimerFired
              ∧ sends (d ++ error_lines c e) = [(c, e)]
              ∧ last (d ++ error_lines c e) = Some (ChanSend c e)) as Hshape.
      { rewrite selects_app, sends_app, (selects_cycle d), (sends_cycle d) by done.
        split_and!; [done..|]. by rewrite last_app. }
      destruct ((Error ResourceProviderService "error solving" e;; chan_send W c e;; mret tt)
                  (st_after s σ d n)) as [[] s'|s'|s'|s']; try done.
      * exists 0%nat. split; [lia|]. right. by exists e.
      * exists 0%nat, e. split; [lia|done].
    + rewrite select_run. cbn [world st_after].
      destruct (w_Select W σ) as [[|b] σ'] eqn:Hsel; cbn [fst snd].
      * destruct (IH (st_after (st_after s σ d n) σ' [Select TimerFired]
                        (CallerSkipFrameCount (st_after s σ d n))))
          as (d' & Htr & Hshape).
        exists ((d ++ [Select TimerFired]) ++ d'). split.
        { rewrite Htr. cbn [trace st_after]. by rewrite !(assoc_L (++)). }
        assert (selects ((d ++ [Select TimerFired]) ++ d') = TimerFired :: selects d'
                ∧ sends ((d ++ [Select TimerFired]) ++ d') = sends d') as [Hsel' Hsend'].
        { rewrite !selects_app, !sends_app, (selects_cycle d), (sends_cycle d) by done. done. }
        assert (∀ x, last d' = Some x → last ((d ++ [Select TimerFired]) ++ d') = Some x)
          as Hlast.
        { intros x Hx. destruct d' as [|a d'] using rev_ind; [done|].
          rewrite last_snoc in Hx. by rewrite (assoc_L (++)), last_snoc. }
        rewrite Hsel', Hsend'.
        destruct (solve_loop W options fuel c _) as [[] s'|s'|s'|s']; try done.
        -- destruct Hshape as (k & Hk & [(b & -> & Hs & Hl)|(e & -> & Hs & Hl)]);
             exists (S k); (split; [lia|]); [left; exists b|right; exists e]; auto.
        -- destruct Hshape as (k & e & Hk & -> & Hs & Hl).
           exists (S k), e. split; [lia|]. auto.
        -- destruct Hshape as [-> Hs]. done.
      * exists (d ++ [Select (CtxDone b)]). split.
        { cbn [final trace st_after]. by rewrite (assoc_L (++)). }
        exists 0%nat. split; [lia|]. left. exists b.
        rewrite selects_app, sends_app, (selects_cycle d), (sends_cycle d) by done.
        split_and!; [done..|]. by rewrite last_snoc.
Qed.

(** X4: [Start] always goes one of three ways, and in each the setup runs in
    the order of the source.  Both subscriptions are registered before any
    client is started; the ledger events are started only once the solver
    client has started.  With both started, [Start] returns the channel it
    made, now shared, and has spawned exactly one goroutine, the loop on
    that channel.  With one failing, it blocks sending that error on a
    channel nobody else holds, and has spawned nothing.  In every case the
    channel is new, the channels and goroutines that existed are left as
    they were, and the logger's global is not touched. *)
Theorem Start_runs_setup_in_order s :
  let c := length (chans s) in
  let s' := final (Start W s) in
  ∃ r, trace s' = trace s ++ start_trace c r
       ∧ take c (chans s') = chans s
       ∧ length (chans s') = S c
       ∧ CallerSkipFrameCount s' = CallerSkipFrameCount s
       ∧ match r with
         | Started c' =>
             c' = c
             ∧ Start W s = Returns c s'
             ∧ chans s' !! c = Some {| ch_shared := true; ch_received := [] |}
             ∧ goroutines s' = goroutines s ++ [SolveLoop c]
         | SolverClientFailed e =>
             (w_SolverClientStart W (world s)).1 = Some e
             ∧ Start W s = Blocks s'
             ∧ chans s' !! c = Some {| ch_shared := false; ch_received := [] |}
             ∧ goroutines s' = goroutines s
         | Web3EventsFailed e =>
             (w_SolverClientStart W (world s)).1 = None
             ∧ (w_Web3EventsStart W (w_SolverClientStart W (world s)).2).1 = Some e
             ∧ Start W s = Blocks s'
             ∧ chans s' !! c = Some {| ch_shared := false; ch_received := [] |}
             ∧ goroutines s' = goroutines s
         end.
Proof.
  cbn zeta.
  destruct (w_SolverClientStart W (world s)) as [[e|] σ1] eqn:H1.
  - exists (SolverClientFailed e).
    rewrite (Start_blocked W s e σ1 [SolverClientStart]) by (left; done).
    cbn [final trace chans goroutines CallerSkipFrameCount start_trace fst snd].
    rewrite take_app_length, length_app, lookup_app_r, Nat.sub_diag by done.
    cbn. split_and!; try done. lia.
  - destruct (w_Web3EventsStart W σ1) as [[e|] σ2] eqn:H2.
    + exists (Web3EventsFailed e).
      rewrite (Start_blocked W s e σ2 [SolverClientStart; Web3EventsStart])
        by (right; exists σ1; done).
      cbn [final trace chans goroutines CallerSkipFrameCount start_trace fst snd].
      rewrite H2, take_app_length, length_app, lookup_app_r, Nat.sub_diag by done.
      cbn. split_and!; try done. lia.
    + exists (Started (length (chans s))).
      rewrite (Start_succeeds W s σ1 σ2) by done.
      cbn [final trace chans goroutines CallerSkipFrameCount start_trace fst snd].
      rewrite take_app_length, length_app, lookup_app_r, Nat.sub_diag by done.
      cbn. split_and!; try done. lia.
Qed.

(** X5: a cycle always begins with the debug line [solving] followed by the
    deals query.  If that query fails the cycle ends there with its error:
    no offer is asked for and none submitted.  Otherwise the deals are
    logged, the active offers are asked for exactly once, and all that
    follows is the submission of offers, each with its log line; if the
    offers query fails the cycle returns that error and submits nothing. *)
Theorem solve_asks_for_deals_first s :
  let q := negotiating_deals_query W in
  let '(negotiatingDeals, err, σ1) := w_GetDeals W q (world s) in
  ∃ r s' d,
    solve W options s = Returns r s'
    ∧ trace s' = trace s ++ log_event DebugLevel "solving" (DataString "") :: GetDeals q :: d
    ∧ match err with
      | Some e => r = Some e ∧ d = [] ∧ world s' = σ1
      | None =>
          ∃ offers,
            d = ((λ deal, log_event InfoLevel "agree to deal" (DataDeal deal))
                   <$> negotiatingDeals)
                ++ GetResourceOffers (active_offers_query W) :: add_lines offers
            ∧ ∀ e, (w_GetResourceOffers W (active_offers_query W) σ1).1.2 = Some e →
                   r = Some e ∧ offers = []
      end.
Proof.
  cbn zeta.
  set (s0 := st_after s (world s) [log_event DebugLevel "solving" (DataString "")] 3).
  destruct (solve_unfold W options s) as (r1 & s1 & Hr1 & Hsolve). fold s0 in Hr1.
  pose proof (agreeToDeals_run W s0) as Hrun. cbn zeta in Hrun.
  change (world s0) with (world s) in Hrun.
  destruct (w_GetDeals W _ (world s)) as [[deals err] σ1]. destruct Hrun as [n Hrun].
  rewrite Hrun in Hr1. injection Hr1 as <- <-.
  destruct err as [e|].
  - exists (Some e), (st_after s0 σ1 [GetDeals (negotiating_deals_query W)] n), [].
    split; [done|]. split; [|done]. cbn [trace st_after s0]. by rewrite <- (assoc_L (++)).
  - destruct Hsolve as (r2 & s2 & Hr2 & Hsolve).
    set (s1 := st_after s0 σ1 _ n) in *.
    destruct (w_GetResourceOffers W (active_offers_query W) σ1) as [[active err] σ2] eqn:Hq.
    destruct err as [e|].
    + rewrite (ensureResourceOffers_query_failed W options s1 e) in Hr2
        by (cbn [world st_after s1]; by rewrite Hq).
      injection Hr2 as <- <-. do 3 eexists. split; [exact Hsolve|].
      split; [|exists []; split; [reflexivity|]].
      * cbn [trace st_after s1 s0]. by rewrite <- !(assoc_L (++)).
      * by intros ? [= <-].
    + destruct (ensureResourceOffers_cases W options s1 active σ2 Hq)
        as (offers & σ3 & _ & _ & _
            & [[_ Hrun']|(acc & o & rest & e & _ & _ & _ & Hrun')]);
        rewrite Hrun' in Hr2; injection Hr2 as <- <-;
        do 3 eexists; (split; [exact Hsolve|]);
        (split; [|eexists; split; [reflexivity|done]]);
        cbn [trace st_after s1 s0]; by rewrite <- !(assoc_L (++)).
Qed.

(** ** Offers over the cycles of a run *)

Lemma cov_steps cov σ σ' i :
  keeps_offers W cov → rtc (world_step W) σ σ' → cov σ i → cov σ' i.
Proof. intros (Hstep & _) Hrtc. induction Hrtc; eauto. Qed.

Lemma world_after_adds_steps (l : list ResourceOffer) σ :
  rtc (world_step W) σ (world_after_adds W l σ).
Proof.
  revert σ. induction l as [|o l IH]; intros σ; [done|].
  eapply rtc_l; [apply (step_AddResourceOffer W o)|]. apply IH.
Qed.

Lemma for_range_index_collect_steps (m : gmap Z ResourceOfferContainer) specs index acc s :
  rtc (world_step W) (world s)
    (world (final (for_range_index index specs (λ index spec addResourceOffers,
      match m !! index with
      | Some _ => mret addResourceOffers
      | None =>
          resourceOffer ← getResourceOffer W options index spec;
          mret (addResourceOffers ++ [resourceOffer])
      end) acc s))).
Proof.
  revert index acc s. induction specs as [|spec specs IH]; intros index acc s; [done|].
  cbn [for_range_index]. destruct (m !! index) as [c|] eqn:Hm.
  - unfold mbind at 1, M_bind at 1, mret at 1, M_ret at 1. apply IH.
  - erewrite bind_run; [|erewrite bind_run by apply getResourceOffer_run; reflexivity].
    eapply rtc_l; [apply (step_UnixNano W)|].
    apply (IH _ _ (st_after s (w_UnixNano W (world s)).2 [] (CallerSkipFrameCount s))).
Qed.

Lemma adds_cov cov (offers : list ResourceOffer) σ :
  keeps_offers W cov →
  Forall (λ o, ro_ResourceProvider o = w_GetAddress W) offers →
  adds_accepted W offers σ →
  ∀ o, o ∈ offers → cov (world_after_adds W offers σ) (ro_Index o).
Proof.
  intros Hk. revert σ. induction offers as [|o0 l IH]; intros σ Hown Hacc o Ho.
  - by apply elem_of_nil in Ho.
  - apply Forall_cons in Hown as [Hown0 Hown]. destruct Hacc as [Hacc0 Hacc].
    apply elem_of_cons in Ho as [->|Ho].
    + eapply cov_steps; [done|apply (world_after_adds_steps l)|].
      by apply Hk.
    + by apply (IH (world_after_add W o0 σ)).
Qed.

Lemma add_calls_logs {A} (l : list A) level title data :
  add_calls ((λ x, log_event (Deal := Deal) level title (data x)) <$> l : list Action) = [].
Proof. by induction l. Qed.

Lemma add_calls_app (d d' : list Action) : add_calls (d ++ d') = add_calls d ++ add_calls d'.
Proof. apply omap_app. Qed.

Lemma added_indices_app (d d' : list Action) :
  added_indices (d ++ d') = added_indices d ++ added_indices d'.
Proof. unfold added_indices. by rewrite add_calls_app, fmap_app. Qed.

Lemma added_indices_log level title data (d : list Action) :
  added_indices (log_event level title data :: d) = added_indices d.
Proof. done. Qed.

Lemma agreeToDeals_adds s :
  ∃ r σ d n, agreeToDeals W s = Returns r (st_after s σ d n)
             ∧ world_step W (world s) σ
             ∧ added_indices d = [].
Proof.
  pose proof (agreeToDeals_run W s) as Hrun. cbn zeta in Hrun.
  pose proof (step_GetDeals W (negotiating_deals_query W) (world s)) as Hstep.
  destruct (w_GetDeals W _ (world s)) as [[deals err] σ]. destruct Hrun as [n Hrun].
  do 4 eexists. split; [exact Hrun|]. split; [exact Hstep|].
  unfold added_indices. destruct err; [done|].
  change (ro_Index <$> add_calls ((λ deal, log_event InfoLevel "agree to deal" (DataDeal deal))
                                    <$> deals : list Action) = []).
  by rewrite add_calls_logs.
Qed.

(** One pass of [ensureResourceOffers] against a solver that keeps what it
    accepted: what it submits is new. *)
Lemma ensureResourceOffers_adds cov (P : Z → Prop) s :
  keeps_offers W cov →
  (∀ i, P i → cov (world s) i) →
  ∃ r σ d n,
    ensureResourceOffers W options s = Returns r (st_after s σ d n)
    ∧ rtc (world_step W) (world s) σ
    ∧ NoDup (added_indices d)
    ∧ (∀ i, i ∈ added_indices d → in_catalogue options i ∧ ¬ P i)
    ∧ (r = None → ∀ i, i ∈ added_indices d → cov σ i).
Proof.
  intros Hk HP. unfold added_indices.
  pose proof (step_GetResourceOffers W (active_offers_query W) (world s)) as Hstep.
  destruct (w_GetResourceOffers W (active_offers_query W) (world s))
    as [[active [e|]] σ1] eqn:Hq; cbn [snd] in Hstep.
  - do 4 eexists.
    split; [apply (ensureResourceOffers_query_failed W options s e); by rewrite Hq|].
    rewrite Hq. cbn [snd add_calls omap fmap list_fmap].
    split_and!; [by apply rtc_once|constructor|by intros i ?%elem_of_nil|done].
  - destruct (ensureResourceOffers_cases W options s _ _ Hq)
      as (offers & σ2 & Hcoll & Hpos & Hbuilt & Hcases).
    assert (ro_Index <$> offers = missing options active) as Hidx.
    { rewrite <- missing_positions_fst, <- Hpos, <- list_fmap_compose. done. }
    assert (rtc (world_step W) (world s) σ2) as Hσ2.
    { eapply rtc_l; [exact Hstep|].
      pose proof (for_range_index_collect_steps (existingResourceOffersMap_of active)
                    (Offers_Specs options) 0 []
                    (st_after s σ1 [GetResourceOffers (active_offers_query W)]
                       (CallerSkipFrameCount s))) as Hsteps.
      unfold collectResourceOffers in Hcoll. by rewrite Hcoll in Hsteps. }
    assert (Forall (λ o, ro_ResourceProvider o = w_GetAddress W) offers) as Hown.
    { eapply Forall_impl; [exact Hbuilt|]. by intros o [nanos ->]. }
    assert (∀ i, i ∈ missing options active → in_catalogue options i ∧ ¬ P i) as Hnew.
    { intros i [Hr Hn]%elem_of_missing. split; [done|]. intros HPi. apply Hn.
      destruct Hk as (_ & _ & Hlist). eapply Hlist; [exact Hq|]. by apply HP. }
    destruct Hcases as [[Hacc Hrun]|(acc & o & rest & e & Hsplit & Hacc & Herr & Hrun)];
      do 4 eexists; (split; [exact Hrun|]); rewrite add_calls_cycle.
    + rewrite Hidx. split_and!.
      * etrans; [exact Hσ2|]. apply world_after_adds_steps.
      * apply NoDup_missing.
      * exact Hnew.
      * intros _ i Hi. rewrite <- Hidx in Hi.
        apply list_elem_of_fmap in Hi as (o & -> & Ho). by eapply adds_cov.
    + assert (ro_Index <$> acc ++ [o] ⊆ missing options active) as Hsub.
      { intros i Hi. rewrite <- Hidx, Hsplit, (cons_middle o), (assoc_L (++)), fmap_app.
        apply elem_of_app. by left. }
      split_and!.
      * etrans; [exact Hσ2|]. etrans; [apply (world_after_adds_steps acc)|].
        apply rtc_once, (step_AddResourceOffer W o).
      * pose proof (NoDup_missing options active) as Hnd.
        rewrite <- Hidx, Hsplit, (cons_middle o), (assoc_L (++)), fmap_app in Hnd.
        by apply NoDup_app in Hnd as [? _].
      * intros i Hi. by apply Hnew, Hsub.
      * done.
Qed.

(** The same of a whole cycle. *)
Lemma solve_adds cov (P : Z → Prop) s :
  keeps_offers W cov →
  (∀ i, P i → cov (world s) i) →
  ∃ r σ d n,
    solve W options s = Returns r (st_after s σ d n)
    ∧ Forall cycle_action d
    ∧ rtc (world_step W) (world s) σ
    ∧ NoDup (added_indices d)
    ∧ (∀ i, i ∈ added_indices d → in_catalogue options i ∧ ¬ P i)
    ∧ (r = None → ∀ i, i ∈ added_indices d → cov σ i).
Proof.
  intros Hk HP.
  destruct (solve_total W options s) as (r & σ & d & n & Hsolve & Hd).
  exists r, σ, d, n. split; [done|]. split; [done|].
  set (s0 := st_after s (world s) [log_event DebugLevel "solving" (DataString "")] 3).
  destruct (solve_unfold W options s) as (r1 & s1 & Hr1 & Hsolve'). fold s0 in Hr1.
  destruct (agreeToDeals_adds s0) as (r1' & σ1 & d1 & n1 & Hr1' & Hstep1 & Hd1).
  rewrite Hr1' in Hr1. injection Hr1 as -> <-.
  destruct r1 as [e|].
  - rewrite Hsolve in Hsolve'. unfold s0 in Hsolve'. rewrite st_after_after in Hsolve'.
    injection Hsolve' as -> -> Heq%app_inv_head ->. subst d.
    rewrite added_indices_log, Hd1.
    split_and!; [by apply rtc_once|constructor|by intros i ?%elem_of_nil|done].
  - destruct Hsolve' as (r2 & s2 & Hr2 & Hsolve').
    destruct (ensureResourceOffers_adds cov P (st_after s0 σ1 d1 n1) Hk)
      as (r2' & σ2 & d2 & n2 & Hr2' & Hsteps & Hnd & Hnew & Hcov).
    { intros i Hi. destruct Hk as (Hk & _). eapply Hk; [exact Hstep1|]. by apply HP. }
    rewrite Hr2' in Hr2. injection Hr2 as -> <-.
    rewrite Hsolve in Hsolve'. unfold s0 in Hsolve'. rewrite !st_after_after in Hsolve'.
    injection Hsolve' as -> -> Heq%app_inv_head ->. subst d.
    rewrite (added_indices_log _ _ _ (d1 ++ d2)), added_indices_app, Hd1.
    cbn [app].
    split_and!; [|done..]. eapply rtc_l; [exact Hstep1|exact Hsteps].
Qed.

Lemma loop_adds cov (P : Z → Prop) fuel c s :
  keeps_offers W cov →
  (∀ i, P i → cov (world s) i) →
  ∃ d, trace (final (solve_loop W options fuel c s)) = trace s ++ d
       ∧ NoDup (added_indices d)
       ∧ (∀ i, i ∈ added_indices d → in_catalogue options i ∧ ¬ P i).
Proof.
  intros Hk. revert P s. induction fuel as [|fuel IH]; intros P s HP.
  - exists []. split; [by rewrite (right_id_L [] (++))|].
    split; [constructor|by intros i ?%elem_of_nil].
  - rewrite solve_loop_unfold.
    destruct (solve_adds cov P s Hk HP) as (r & σ & d & n & Hsolve & Hd & Hσ & Hnd & Hnew & Hcov).
    rewrite Hsolve. destruct r as [e|].
    + destruct (forward_error_final W c e (st_after s σ d n)) as (_ & Htr & _).
      cbn zeta in Htr. exists (d ++ error_lines c e). split.
      { rewrite Htr. cbn [trace st_after]. by rewrite (assoc_L (++)). }
      rewrite added_indices_app. cbn. by rewrite (right_id_L [] (++)).
    + rewrite select_run. cbn [world st_after].
      pose proof (step_Select W σ) as Hstep.
      destruct (w_Select W σ) as [[|b] σ'] eqn:Hsel; cbn [fst snd] in *.
      * destruct (IH (λ i, P i ∨ i ∈ added_indices d)
                    (st_after (st_after s σ d n) σ' [Select TimerFired]
                       (CallerSkipFrameCount (st_after s σ d n))))
          as (d' & Htr & Hnd' & Hnew').
        { intros i Hi. pose proof Hk as (Hk1 & _). eapply Hk1; [exact Hstep|].
          destruct Hi as [Hi|Hi]; [|by apply Hcov].
          eapply cov_steps; [done|exact Hσ|by apply HP]. }
        exists ((d ++ [Select TimerFired]) ++ d'). split.
        { rewrite Htr. cbn [trace st_after]. by rewrite !(assoc_L (++)). }
        rewrite !added_indices_app.
        change (added_indices [Select TimerFired]) with (@nil Z).
        rewrite (right_id_L [] (++)). split.
        -- apply NoDup_app. split_and!; [done| |done].
           intros i Hi Hi'. apply Hnew' in Hi' as [_ Hi']. apply Hi'. by right.
        -- intros i [Hi|Hi]%elem_of_app; [by apply Hnew|].
           apply Hnew' in Hi as [? Hi]. split; [done|]. intros ?. apply Hi. by left.
      * exists (d ++ [Select (CtxDone b)]). split.
        { cbn [final trace st_after]. by rewrite (assoc_L (++)). }
        rewrite added_indices_app. cbn. by rewrite (right_id_L [] (++)).
Qed.

(** X6: against a solver that keeps what it accepted, the loop never submits
    two offers with the same index, over all the cycles of a run and
    whatever else fails in between.  Every index it submits is a position of
    the catalogue that had no active offer when the run began, so a run
    submits at most as many offers as the catalogue has entries. *)
Theorem solve_loop_never_repeats_an_offer cov fuel c s :
  keeps_offers W cov →
  ∃ d, trace (final (solve_loop W options fuel c s)) = trace s ++ d
       ∧ NoDup (added_indices d)
       ∧ (∀ i, i ∈ added_indices d → in_catalogue options i ∧ ¬ cov (world s) i)
       ∧ (length (add_calls d) ≤ length (Offers_Specs options))%nat.
Proof.
  intros Hk.
  destruct (loop_adds cov (cov (world s)) fuel c s Hk) as (d & Htr & Hnd & Hnew); [done|].
  exists d. split_and!; [done..|].
  assert (added_indices d ⊆+ seqZ 0 (Z.of_nat (length (Offers_Specs options)))) as Hsub.
  { apply NoDup_submseteq; [done|]. intros i [Hi _]%Hnew. apply elem_of_seqZ.
    unfold in_catalogue in Hi. lia. }
  apply submseteq_length in Hsub. unfold added_indices in Hsub.
  rewrite length_fmap, length_seqZ in Hsub. lia.
Qed.

(** A pass of [ensureResourceOffers] that returned nil leaves an active offer
    at every position of the catalogue. *)
Lemma ensureResourceOffers_covers cov s s1 :
  keeps_offers W cov → lists_only_kept W cov →
  ensureResourceOffers W options s = Returns None s1 →
  ∀ i, in_catalogue options i → cov (world s1) i.
Proof.
  intros Hk Hl Hrun i Hi.
  pose proof (step_GetResourceOffers W (active_offers_query W) (world s)) as Hstep.
  destruct (w_GetResourceOffers W (active_offers_query W) (world s))
    as [[active [e|]] σ1] eqn:Hq; cbn [snd] in Hstep.
  - rewrite (ensureResourceOffers_query_failed W options s e) in Hrun by (by rewrite Hq).
    done.
  - destruct (ensureResourceOffers_cases W options s _ _ Hq)
      as (offers & σ2 & Hcoll & Hpos & Hbuilt & Hcases).
    assert (ro_Index <$> offers = missing options active) as Hidx.
    { rewrite <- missing_positions_fst, <- Hpos, <- list_fmap_compose. done. }
    assert (rtc (world_step W) (world s) σ2) as Hσ2.
    { eapply rtc_l; [exact Hstep|].
      pose proof (for_range_index_collect_steps (existingResourceOffersMap_of active)
                    (Offers_Specs options) 0 []
                    (st_after s σ1 [GetResourceOffers (active_offers_query W)]
                       (CallerSkipFrameCount s))) as Hsteps.
      unfold collectResourceOffers in Hcoll. by rewrite Hcoll in Hsteps. }
    assert (Forall (λ o, ro_ResourceProvider o = w_GetAddress W) offers) as Hown.
    { eapply Forall_impl; [exact Hbuilt|]. by intros o [nanos ->]. }
    destruct Hcases as [[Hacc Hrun']|(acc & o & rest & e & _ & _ & _ & Hrun')];
      rewrite Hrun' in Hrun; [|done].
    injection Hrun as <-. cbn [world st_after].
    destruct (decide (i ∈ covered active)) as [Hin|Hout].
    + eapply cov_steps; [done|apply world_after_adds_steps|].
      eapply cov_steps; [done|exact Hσ2|]. by eapply Hl.
    + assert (i ∈ ro_Index <$> offers) as (o & -> & Ho)%list_elem_of_fmap.
      { rewrite Hidx. by apply elem_of_missing. }
      by eapply adds_cov.
Qed.

(** X7: with such a solver, which also lists no offer it does not hold, a
    cycle that returned nil leaves an active offer at every position of the
    catalogue; and from then on, in whatever state of the world the loop is
    run again, it submits no offer at all. *)
Theorem solve_loop_settles cov s s1 :
  keeps_offers W cov → lists_only_kept W cov →
  solve W options s = Returns None s1 →
  (∀ i, in_catalogue options i → cov (world s1) i)
  ∧ ∀ fuel c s2,
      rtc (world_step W) (world s1) (world s2) →
      ∃ d, trace (final (solve_loop W options fuel c s2)) = trace s2 ++ d
           ∧ add_calls d = [].
Proof.
  intros Hk Hl Hsolve.
  assert (∀ i, in_catalogue options i → cov (world s1) i) as Hall.
  { destruct (solve_unfold W options s) as (r1 & s1' & Hr1 & Hsolve').
    destruct r1 as [e|]; [by rewrite Hsolve in Hsolve'|].
    destruct Hsolve' as (r2 & s2 & Hr2 & Hsolve'). rewrite Hsolve in Hsolve'.
    injection Hsolve' as <- <-. by eapply ensureResourceOffers_covers. }
  split; [done|]. intros fuel c s2 Hs2.
  destruct (loop_adds cov (in_catalogue options) fuel c s2 Hk) as (d & Htr & _ & Hnew).
  { intros i Hi. eapply cov_steps; [done|exact Hs2|]. by apply Hall. }
  exists d. split; [done|].
  destruct (add_calls d) as [|o l] eqn:Hd; [done|].
  destruct (Hnew (ro_Index o)) as [? []]; [|done].
  unfold added_indices. rewrite Hd. by left.
Qed.

(** ** The logger's global over a run *)

Lemma solve_loop_keeps_skip fuel c s :
  CallerSkipFrameCount s = 3 →
  CallerSkipFrameCount (final (solve_loop W options fuel c s)) = 3.
Proof.
  intros Hs. destruct fuel as [|fuel]; [done|].
  by destruct (solve_loop_discipline (S fuel) c s) as (_ & _ & _ & ->).
Qed.

Lemma Start_keeps_skip s :
  CallerSkipFrameCount (final (Start W s)) = CallerSkipFrameCount s.
Proof.
  destruct (w_SolverClientStart W (world s)) as [[e|] σ1] eqn:H1.
  - by rewrite (Start_blocked W s e σ1 [SolverClientStart]) by (left; done).
  - destruct (w_Web3EventsStart W σ1) as [[e|] σ2] eqn:H2.
    + by rewrite (Start_blocked W s e σ2 [SolverClientStart; Web3EventsStart])
        by (right; exists σ1; done).
    + by rewrite (Start_succeeds W s σ1 σ2) by done.
Qed.

Lemma run_goroutines_keeps_skip fuel s :
  CallerSkipFrameCount s = 3 →
  CallerSkipFrameCount (final (run_goroutines W options fuel s)) = 3.
Proof.
  unfold run_goroutines.
  assert (CallerSkipFrameCount (st_goroutines [] s) = CallerSkipFrameCount s) as <- by done.
  generalize (st_goroutines [] s). induction (goroutines s) as [|[c] l IH]; intros s' Hs'.
  - done.
  - cbn [for_range run_goroutine]. unfold mbind, M_bind.
    pose proof (solve_loop_keeps_skip fuel c s' Hs') as Hc.
    destruct (solve_loop W options fuel c s') as [[] s1|s1|s1|s1]; cbn [final] in *;
      [by apply IH|done..].
Qed.

Lemma controller_keeps_skip fuel s :
  CallerSkipFrameCount s = 3 →
  CallerSkipFrameCount (final (controller W options fuel s)) = 3.
Proof.
  intros Hs. unfold controller. pose proof (Start_keeps_skip s) as Hstart.
  unfold mbind at 1, M_bind at 1.
  destruct (Start W s) as [c s1|s1|s1|s1]; cbn [final] in *; [|congruence..].
  rewrite final_then_ret. apply run_goroutines_keeps_skip. congruence.
Qed.

End RunProperties.

(** * The closures, the logger and the constructor *)

Section SetupProperties.
Context {MachineSpec OfferMode DealPricing DealTimeouts TrustedPartiesT : Type}.
Context {Deal StorageDealStateChange : Type}.
Context (Deal_ResourceProvider : Deal → string).
Context {Σ : Type}.

Abbreviation World :=
  (@World MachineSpec OfferMode DealPricing DealTimeouts TrustedPartiesT Deal Σ).
Abbreviation St :=
  (@St MachineSpec OfferMode DealPricing DealTimeouts TrustedPartiesT Deal
     StorageDealStateChange Σ).
Abbreviation Action :=
  (@Action MachineSpec OfferMode DealPricing DealTimeouts TrustedPartiesT Deal
     StorageDealStateChange).
Abbreviation Delivery := (@Delivery Deal StorageDealStateChange).

Context (W : World).
Context (options : @ResourceProviderOfferOptions MachineSpec OfferMode DealPricing
                     DealTimeouts TrustedPartiesT).

Implicit Types s : St.
Implicit Types x : Delivery.
Implicit Types l : list Delivery.

Lemma run_callback_run x s :
  ∃ n, run_callback Deal_ResourceProvider W x s
       = Returns tt (st_after s (world s) (callback_lines x) n)
       ∧ (CallerSkipFrameCount s = 3 → n = 3).
Proof.
  destruct x as [ev|ev]; cbn [run_callback callback_lines].
  - unfold solverEventHandler.
    assert (emit (ServiceLogSolverEvent ResourceProviderService ev) s
            = Returns tt (st_after s (world s)
                            [ServiceLogSolverEvent ResourceProviderService ev]
                            (CallerSkipFrameCount s))) as Hemit by (by destruct s).
    erewrite bind_run by exact Hemit.
    case_bool_decide as Hty.
    + rewrite Hty. destruct (ev_Deal ev) as [deal|]; simpl.
      * exists (CallerSkipFrameCount s). split; [|done].
        unfold mbind, M_bind, deref. by case_bool_decide.
      * exists 3. split; [|done]. unfold Error. by rewrite logWithCaller_run, st_after_after.
    + exists (CallerSkipFrameCount s). split; [|done]. by destruct (ev_EventType ev).
  - exists 3. split; [|done]. unfold dealStateChangeHandler, Info.
    by rewrite logWithCaller_run.
Qed.

Lemma service_logged_callback_lines x :
  service_logged (callback_lines x : list Action)
  = match x with SolverEventDelivered ev => [ev] | DealStateChangeDelivered _ => [] end.
Proof.
  destruct x as [ev|ev]; [|done]. cbn.
  by destruct (ev_EventType ev), (ev_Deal ev).
Qed.

Lemma logging_callback_lines x : Forall logging (callback_lines x : list Action).
Proof.
  destruct x as [ev|ev]; cbn; [|by repeat constructor].
  constructor; [done|]. destruct (ev_EventType ev), (ev_Deal ev); by repeat constructor.
Qed.

Lemma callbacks_only_log_run l s :
  ∃ n, for_range l (run_callback Deal_ResourceProvider W) s
       = Returns tt (st_after s (world s) (l ≫= callback_lines) n)
       ∧ (CallerSkipFrameCount s = 3 → n = 3).
Proof.
  revert s. induction l as [|x l IH]; intros s.
  - exists (CallerSkipFrameCount s). cbn. unfold mret, M_ret. by rewrite st_after_id.
  - destruct (run_callback_run x s) as (n1 & Hx & Hn1).
    destruct (IH (st_after s (world s) (callback_lines x) n1)) as (n & Hl & Hn).
    exists n. cbn [for_range]. erewrite bind_run by exact Hx.
    rewrite Hl, st_after_after. cbn [world st_after mbind list_bind].
    split; [done|]. intros Hs. apply Hn. cbn. by apply Hn1.
Qed.

(** X8: whatever arrives for the two closures the controller registers,
    and in whatever order, they return and only log.  The world is as it
    was, no channel and no goroutine is touched; each solver event is handed
    to the solver's service log exactly once, in the order of arrival; each
    change of a deal's state is logged at info level; a log line is written
    under the service of the resource provider with the caller four frames
    up.  With the logger's global at 3 before, it is 3 after. *)
Theorem callbacks_only_log l s :
  ∃ n, for_range l (run_callback Deal_ResourceProvider W) s
       = Returns tt (st_after s (world s) (l ≫= callback_lines) n)
       ∧ Forall logging (l ≫= callback_lines : list Action)
       ∧ service_logged (l ≫= callback_lines : list Action) = solver_events l
       ∧ (CallerSkipFrameCount s = 3 → n = 3).
Proof.
  revert s. induction l as [|x l IH]; intros s.
  - exists (CallerSkipFrameCount s). cbn. unfold mret, M_ret. by rewrite st_after_id.
  - destruct (run_callback_run x s) as (n1 & Hx & Hn1).
    destruct (IH (st_after s (world s) (callback_lines x) n1)) as (n & Hl & Hlog & Hsvc & Hn).
    exists n. cbn [for_range]. erewrite bind_run by exact Hx.
    rewrite Hl, st_after_after. cbn [world st_after mbind list_bind].
    split_and!.
    + done.
    + apply Forall_app. split; [apply logging_callback_lines|done].
    + unfold service_logged in *. rewrite omap_app. fold (service_logged (callback_lines x : list Action)).
      rewrite service_logged_callback_lines, Hsvc. by destruct x.
    + intros Hs. apply Hn. cbn. by apply Hn1.
Qed.

(** ** The logger *)

Section LoggerProperties.
Context {zerolog_Level : Type} (zerolog_InfoLevel : zerolog_Level).
Context (zerolog_ParseLevel : string → zerolog_Level * option error).

Abbreviation setup := (SetupLogging zerolog_InfoLevel zerolog_ParseLevel).

Lemma SetupLogging_run os_Getenv s :
  ∃ logger, setup os_Getenv s = Returns logger (st_skip 3 s).
Proof.
  unfold SetupLogging.
  destruct (zerolog_ParseLevel _) as [parsed err]. by eexists.
Qed.

(** X9: [SetupLogging] cannot fail, builds a logger that reports the caller
    and sets the logger's global to 3.  Without [LOG_LEVEL] in the
    environment it does exactly what it does with [LOG_LEVEL=info].  With a
    level that zerolog parses the logger has that level; with one it does
    not parse the error is dropped and the level is info. *)
Theorem SetupLogging_falls_back_to_info os_Getenv s :
  ∃ logger,
    setup os_Getenv s = Returns logger (st_skip 3 s)
    ∧ logger_with_caller logger = true
    ∧ (os_Getenv "LOG_LEVEL" = "" →
       setup os_Getenv s = setup (λ _, "info") s)
    ∧ (os_Getenv "LOG_LEVEL" ≠ "" →
       logger_level logger
       = match zerolog_ParseLevel (os_Getenv "LOG_LEVEL") with
         | (parsedLogLevel, None) => parsedLogLevel
         | (_, Some _) => zerolog_InfoLevel
         end).
Proof.
  assert (os_Getenv "LOG_LEVEL" = "" → setup os_Getenv s = setup (λ _, "info") s) as Hunset.
  { intros Hunset. unfold SetupLogging. by rewrite Hunset. }
  unfold SetupLogging in *.
  destruct (decide (os_Getenv "LOG_LEVEL" = "")) as [Hempty|Hset].
  - destruct (zerolog_ParseLevel "info") as [parsed err].
    eexists. split; [reflexivity|]. split_and!; [done|exact Hunset|done].
  - destruct (zerolog_ParseLevel (os_Getenv "LOG_LEVEL")) as [parsed err].
    eexists. split; [reflexivity|]. split_and!; [done|done|].
    intros _. by destruct err.
Qed.

(** X10: the value [SetupLogging] gives [zerolog.CallerSkipFrameCount] is the
    one [logWithCaller] resets it to.  So after [SetupLogging], at the end
    of any run of the controller (whether [Start] returned or blocked,
    however many cycles ran) and after any sequence of callbacks, the global
    is still 3. *)
Theorem SetupLogging_sets_what_logging_keeps os_Getenv fuel l s :
  CallerSkipFrameCount
    (final ((setup os_Getenv;; controller W options fuel) s)) = 3
  ∧ CallerSkipFrameCount
      (final ((setup os_Getenv;;
               for_range l (run_callback Deal_ResourceProvider W)) s)) = 3.
Proof.
  destruct (SetupLogging_run os_Getenv s) as [logger Hsetup].
  split; erewrite bind_run by exact Hsetup.
  - by apply controller_keeps_skip.
  - destruct (callbacks_only_log_run l (st_skip 3 s)) as (n & -> & Hn). by apply Hn.
Qed.

End LoggerProperties.

End SetupProperties.

(** ** The constructor *)

Section ConstructionProperties.
Context {MachineSpec OfferMode DealPricing DealTimeouts TrustedPartiesT : Type}.
Context {Web3SDK SolverClient EventChannels : Type}.
Context {Σ : Type}.

Abbreviation Factory := (@Factory Web3SDK SolverClient EventChannels Σ).
Abbreviation ResourceProviderOptions :=
  (@ResourceProviderOptions MachineSpec OfferMode DealPricing DealTimeouts TrustedPartiesT).

Context (F : Factory).

(** X11: [NewResourceProviderController] returns a controller or an error,
    never both and never neither.  It asks the ledger for the URL of the
    solver at the configured address first.  If that fails it returns that
    error and builds no client.  Otherwise it builds the client with the URL
    it got and the configured private key; if that fails it returns that
    error and makes no event channels.  Otherwise the controller holds that
    client, the options and the SDK it was given, and new event channels. *)
Theorem NewResourceProviderController_controller_or_error
    (options : ResourceProviderOptions) (web3SDK : Web3SDK) σ calls :
  let address := Web3_SolverAddress (rpo_Web3 options) in
  let '(solverUrl, err1, σ1) := f_GetSolverUrl F web3SDK address σ in
  let o := {| URL := solverUrl; PrivateKey := Web3_PrivateKey (rpo_Web3 options) |} in
  let '(solverClient, err2, σ2) := f_NewSolverClient F o σ1 in
  ∃ r σ' made,
    NewResourceProviderController F options web3SDK (σ, calls) = (r, (σ', calls ++ made))
    ∧ match r with
      | (Some controller, None) =>
          err1 = None ∧ err2 = None
          ∧ made = [GetSolverUrl web3SDK address; NewSolverClient o; NewEventChannels]
          ∧ controller = {| rpc_solverClient := solverClient; rpc_options := options;
                            rpc_web3SDK := web3SDK;
                            rpc_web3Events := (f_NewEventChannels F σ2).1 |}
          ∧ σ' = (f_NewEventChannels F σ2).2
      | (None, Some e) =>
          (err1 = Some e ∧ made = [GetSolverUrl web3SDK address] ∧ σ' = σ1)
          ∨ (err1 = None ∧ err2 = Some e
             ∧ made = [GetSolverUrl web3SDK address; NewSolverClient o] ∧ σ' = σ2)
      | _ => False
      end.
Proof.
  cbn zeta. unfold NewResourceProviderController.
  destruct (f_GetSolverUrl F web3SDK _ σ) as [[solverUrl [e1|]] σ1].
  - destruct (f_NewSolverClient F _ σ1) as [[solverClient err2] σ2].
    do 3 eexists. split; [reflexivity|]. by left.
  - destruct (f_NewSolverClient F _ σ1) as [[solverClient [e2|]] σ2].
    + do 3 eexists. split; [by rewrite <- (assoc_L (++))|]. by right.
    + destruct (f_NewEventChannels F σ2) as [web3Events σ3].
      do 3 eexists. split; [by rewrite <- !(assoc_L (++))|]. done.
Qed.

End ConstructionProperties.

(** * The storing solver *)

(** The storing solver keeps the offers it accepted and lists them. *)
Lemma Store_keeps_offers : keeps_offers Store.solver Store.active_index.
Proof.
  unfold keeps_offers, Store.active_index. split_and!.
  - intros σ σ' i Hstep Hi. inversion Hstep; subst; try done.
    cbn. rewrite filter_app. unfold covered in *. rewrite fmap_app, elem_of_app. by left.
  - intros o σ Hown _. unfold world_after_add. cbn in *.
    rewrite filter_app. unfold covered. rewrite fmap_app, elem_of_app. right.
    rewrite filter_cons_True by done. by left.
  - intros σ active σ' i Hq Hi. cbn in Hq. by injection Hq as <- <-.
Qed.

Lemma Store_lists_only_kept : lists_only_kept Store.solver Store.active_index.
Proof. intros σ active σ' i Hq Hi. cbn in Hq. by injection Hq as <- <-. Qed.

(** The storing solver keeps what it accepted: a run against it repeats no
    offer. *)
Lemma solve_loop_never_repeats_an_offer_witness :
  ∃ d, trace (final (solve_loop Store.solver Ex.options3 4 0 Store.begun))
       = trace Store.begun ++ d
       ∧ NoDup (added_indices d)
       ∧ (∀ i, i ∈ added_indices d →
               in_catalogue Ex.options3 i ∧ ¬ Store.active_index (world Store.begun) i)
       ∧ (length (add_calls d) ≤ length (Offers_Specs Ex.options3))%nat.
Proof.
  apply (solve_loop_never_repeats_an_offer Store.solver Ex.options3 Store.active_index).
  apply Store_keeps_offers.
Defined.

(** After the first cycle against the storing solver the catalogue is
    covered, and the loop submits nothing more. *)
Lemma solve_loop_settles_witness :
  let s1 := final (solve Store.solver Ex.options3 Store.begun) in
  (∀ i, in_catalogue Ex.options3 i → Store.active_index (world s1) i)
  ∧ ∀ fuel c (s2 : Store.St),
      rtc (world_step Store.solver) (world s1) (world s2) →
      ∃ d, trace (final (solve_loop Store.solver Ex.options3 fuel c s2)) = trace s2 ++ d
           ∧ add_calls d = [].
Proof.
  apply (solve_loop_settles Store.solver Ex.options3 Store.active_index Store.begun).
  - apply Store_keeps_offers.
  - apply Store_lists_only_kept.
  - by vm_compute.
Defined.

(** What the storing solver sees over four cycles: the two missing offers
    once, in the first. *)
Example Store_four_cycles :
  ro_Index <$> add_calls (trace (final (solve_loop Store.solver Ex.options3 4 0 Store.begun)))
  = [1; 2].
Proof. by vm_compute. Qed.

(** * Properties of the deployment fixtures *)

Section FixtureProperties.
Import Fixtures.
Context {Signer Contract : Type}.
Context {Σ : Type}.
Context (DEFAULT_TOKEN_SUPPLY DEFAULT_TOKENS_PER_ACCOUNT : Z).

Abbreviation Chain := (@Chain Signer Contract Σ).
Abbreviation Tx := (@Tx Signer Contract).
Abbreviation AddressLike := (@AddressLike Contract).

Context (C : Chain).

Implicit Types s : Σ * list Tx.
Implicit Types controllerAddress : option AddressLike.

(** Following a fixture call by call: the chain answers or rejects. *)
Ltac answer :=
  match goal with
  | |- context [c_getWallet C ?n ?σ] => destruct (c_getWallet C n σ) as [[?|?] ?]
  | |- context [c_getContractFactory C ?n ?g ?σ] =>
      destruct (c_getContractFactory C n g σ) as [[?|?] ?]
  | |- context [c_deploy C ?n ?g ?a ?σ] => destruct (c_deploy C n g a σ) as [[?|?] ?]
  | |- context [c_initialize C ?c ?g ?a ?σ] => destruct (c_initialize C c g a σ) as [[?|?] ?]
  | |- context [c_setControllerAddress C ?c ?g ?a ?σ] =>
      destruct (c_setControllerAddress C c g a σ) as [[?|?] ?]
  | |- context [c_fundAccountsWithTokens C ?c ?n ?σ] =>
      destruct (c_fundAccountsWithTokens C c n σ) as [[?|?] ?]
  | |- context [c_getAddress C ?c ?σ] => destruct (c_getAddress C c σ) as [[?|?] ?]
  end; cbn.

Ltac follow := cbn; repeat answer.

Ltac calls_made :=
  eexists; split; [by rewrite <- ?(assoc_L (++))|]; cbn.

(** X12: the token fixture and the storage fixture ask for the deployment
    of one contract each, the variant for tests exactly when [testMode] is
    given as true, and initialise nothing.  The token fixture hands out
    tokens exactly when [withFunds] is given as true, the storage fixture
    never.  Each sets the controller address on its contract exactly when it
    was given one that JavaScript takes for true: an address left out and
    the empty string set nothing.  A fixture that rejects has asked for no
    other deployment. *)
Theorem single_contract_fixtures (testMode withFunds : option bool) controllerAddress s :
  let token_out := setupTokenFixture DEFAULT_TOKEN_SUPPLY DEFAULT_TOKENS_PER_ACCOUNT C
                     testMode withFunds controllerAddress s in
  let storage_out := setupStorageFixture C testMode controllerAddress s in
  (∃ d, token_out.2.2 = s.2 ++ d
        ∧ deployed d `prefix_of`
            [if default false testMode then "LilypadTokenTestable" else "LilypadToken"]
        ∧ match token_out.1 with
          | inl token =>
              deployed d
              = [if default false testMode then "LilypadTokenTestable" else "LilypadToken"]
              ∧ funded d = (if default false withFunds
                            then [(token, DEFAULT_TOKENS_PER_ACCOUNT)] else [])
              ∧ controllers_set d = (λ a, (token, a)) <$> given controllerAddress
              ∧ initialized d = []
          | inr _ => True
          end)
  ∧ (∃ d, storage_out.2.2 = s.2 ++ d
          ∧ deployed d `prefix_of`
              [if default false testMode then "LilypadStorageTestable" else "LilypadStorage"]
          ∧ match storage_out.1 with
            | inl storage =>
                deployed d
                = [if default false testMode
                   then "LilypadStorageTestable" else "LilypadStorage"]
                ∧ funded d = []
                ∧ controllers_set d = (λ a, (storage, a)) <$> given controllerAddress
                ∧ initialized d = []
            | inr _ => True
            end).
Proof.
  destruct s as [σ calls]. unfold setupStorageFixture, setupTokenFixture, deployStorage,
    deployToken, deployContract, when_truthy, given, tx, mbind, P_bind, mret, P_ret.
  split.
  - destruct testMode as [[]|], withFunds as [[]|], controllerAddress as [a|];
      try destruct (truthy (Some a)); follow; calls_made.
    all: try (split; [by eexists|done]).
    all: try (split; [by exists [_]|done]).
  - destruct testMode as [[]|], controllerAddress as [a|];
      try destruct (truthy (Some a)); follow; calls_made.
    all: try (split; [by eexists|done]).
    all: try (split; [by exists [_]|done]).
Qed.

(** X13: the payments fixture never asks for the token for tests, whether
    it resolves or rejects: [testMode] only chooses the payments contract.
    When it resolves it has deployed the token and then the payments
    contract, initialised the payments contract with the token, and made the
    payments contract the controller of the token; the controller address it
    was given, if it counts as one, goes to the payments contract, after
    that.  Tokens are handed out exactly when [withFunds] is given as
    true. *)
Theorem setupPaymentsFixture_token_is_never_testable
    (testMode withFunds : option bool) controllerAddress s :
  let out := setupPaymentsFixture DEFAULT_TOKEN_SUPPLY DEFAULT_TOKENS_PER_ACCOUNT C
               testMode withFunds controllerAddress s in
  let payments_name :=
    if default false testMode then "LilypadPaymentsTestable" else "LilypadPayments" in
  ∃ d, out.2.2 = s.2 ++ d
       ∧ deployed d `prefix_of` ["LilypadToken"; payments_name]
       ∧ match out.1 with
         | inl (token, payments) =>
             deployed d = ["LilypadToken"; payments_name]
             ∧ initialized d = [(payments, [AddressOf token])]
             ∧ controllers_set d
               = (token, AddressOf payments)
                 :: ((λ a, (payments, a)) <$> given controllerAddress)
             ∧ funded d = (if default false withFunds
                           then [(token, DEFAULT_TOKENS_PER_ACCOUNT)] else [])
         | inr _ => True
         end.
Proof.
  destruct s as [σ calls]. unfold setupPaymentsFixture, setupTokenFixture, deployPayments,
    deployToken, deployContract, when_truthy, given, tx, mbind, P_bind, mret, P_ret.
  destruct testMode as [[]|], withFunds as [[]|], controllerAddress as [a|];
    try destruct (truthy (Some a)); follow; calls_made.
  all: try (split; [by eexists|done]).
  all: try (split; [by exists [_]|done]).
Qed.


End FixtureProperties.

(** The controller fixture on a chain that takes every call: four
    contracts, wired. *)
Example setupControllerFixture_on_hardhat :
  let out := Fixtures.setupControllerFixture 1000 10 Hardhat.chain (Some true) (0%nat, []) in
  out.1 = inl (0, 1, 2, 3)%nat
  ∧ Fixtures.controllers_set out.2.2
    = [(0%nat, Fixtures.AddressOf 1%nat);
       (1%nat, Fixtures.AddressString "0xA3");
       (2%nat, Fixtures.AddressString "0xA3")]
  ∧ Fixtures.funded out.2.2 = [(0%nat, 10)].
Proof. by vm_compute. Qed.

(** The same where the storage contract cannot be deployed: the fixture
    rejects with the chain's reason, that deployment is the last thing it
    asked for, and the payments contract is left as the controller of the
    token. *)
Example setupControllerFixture_rejected :
  let out := Fixtures.setupControllerFixture 1000 10 Hardhat.chain_without_storage None
               (0%nat, []) in
  out.1 = inr (Fixtures.Rejected "out of gas")
  ∧ Fixtures.deployed out.2.2 = ["LilypadToken"; "LilypadPayments"; "LilypadStorage"]
  ∧ Fixtures.controllers_set out.2.2 = [(0%nat, Fixtures.AddressOf 1%nat)]
  ∧ last out.2.2 = Some (Fixtures.Deploy "LilypadStorage" "admin" []).
Proof. by vm_compute. Qed.

(** An empty controller address is no address. *)
Example setupTokenFixture_empty_address :
  Fixtures.setupTokenFixture 1000 10 Hardhat.chain None None
    (Some (Fixtures.AddressString "")) (0%nat, [])
  = Fixtures.setupTokenFixture 1000 10 Hardhat.chain None None None (0%nat, []).
Proof. by vm_compute. Qed.
